(** * Incident dispatch and escalation engine: a shallow embedding

    The development follows the Python sources module by module:
    [incident/models.py], [core/validator.py], [core/escalator.py],
    [incident/filters.py], [persistence/storage.py], [core/dispatcher.py].

    Conventions of the embedding.
    - A Python [int] is a [Z]; a [str] is a [string] whose characters are read
      as code points below 256.
    - A [datetime] is a [Z], the number of microseconds since the epoch (the
      resolution of [datetime] and [timedelta]); a [timedelta] is a [Z] of
      microseconds.  [datetime.now()] is an explicit argument [now] of every
      operation that reads the clock: one reading per call.
    - A [dict] is an insertion-ordered association list, because the
      dispatcher iterates [self.incidents.values()] and the order of that
      iteration decides the order of history entries and of search results.
    - Exceptions are values of [exn]; code that may raise returns an
      [outcome].  [logger] calls are left out of the dispatcher operations;
      they are kept, as events, on the session and storage paths. *)

From Stdlib Require Import ZArith List String Ascii Bool Lia Sorted.
Import ListNotations.

Local Open Scope string_scope.
Local Open Scope list_scope.
Local Open Scope Z_scope.

(** ** Python primitives *)

Module PyStr.

(** [str.isspace] on one character, for code points below 256. *)
Definition isspace (c : ascii) : bool :=
  let n := Z.of_N (N_of_ascii c) in
  ((9 <=? n) && (n <=? 13)) || ((28 <=? n) && (n <=? 32))
  || (n =? 133) || (n =? 160).

Fixpoint lstrip (s : string) : string :=
  match s with
  | EmptyString => EmptyString
  | String c r => if isspace c then lstrip r else s
  end.

Fixpoint rstrip (s : string) : string :=
  match s with
  | EmptyString => EmptyString
  | String c r =>
      match rstrip r with
      | EmptyString => if isspace c then EmptyString else String c EmptyString
      | r' => String c r'
      end
  end.

(** [s.strip()] *)
Definition strip (s : string) : string := rstrip (lstrip s).

(** [len(s)] *)
Definition len (s : string) : Z := Z.of_nat (String.length s).

(** Truth value of a string: [bool(s)]. *)
Definition truthy (s : string) : bool := negb (s =? EmptyString)%string.

(** [x in xs] for a tuple, list or set of strings. *)
Definition mem (x : string) (xs : list string) : bool :=
  existsb (String.eqb x) xs.

Fixpoint forall_chars (p : ascii -> bool) (s : string) : bool :=
  match s with
  | EmptyString => true
  | String c r => p c && forall_chars p r
  end.

End PyStr.

(** An insertion-ordered dictionary.  Assigning to a key that is present
    replaces the value in place; a new key goes to the end. *)
Section PyDict.
Context {K V : Type} (eqb : K -> K -> bool).

Fixpoint dict_get (d : list (K * V)) (k : K) : option V :=
  match d with
  | [] => None
  | (k', v) :: r => if eqb k' k then Some v else dict_get r k
  end.

Fixpoint dict_set (d : list (K * V)) (k : K) (v : V) : list (K * V) :=
  match d with
  | [] => [(k, v)]
  | (k', v') :: r =>
      if eqb k' k then (k', v) :: r else (k', v') :: dict_set r k v
  end.

Definition dict_contains (d : list (K * V)) (k : K) : bool :=
  match dict_get d k with Some _ => true | None => false end.

Definition dict_keys (d : list (K * V)) : list K := map fst d.
Definition dict_values (d : list (K * V)) : list V := map snd d.
End PyDict.

(** [l[start:]] on a list. *)
Definition slice_from {A : Type} (l : list A) (start : Z) : list A :=
  let n := Z.of_nat (List.length l) in
  let i := if start <? 0 then Z.max 0 (n + start) else Z.min start n in
  skipn (Z.to_nat i) l.

(** The messages of [validate_all_incident_data].  The text of the first
    two joins the elements of a [set], whose order is not fixed, so a
    message is identified by the constraint it reports. *)
Inductive violation : Type :=
| InvalidType
| InvalidPriority
| InvalidDescription.

(** Exceptions the modelled code can meet.  [ValueError msg errors] has the
    message [msg], followed by the messages of [errors] joined with ["; "]
    when there are any.  [KeyboardInterrupt] stands for the exceptions that
    are not subclasses of [Exception]. *)
Inductive exn : Type :=
| ValueError (msg : string) (errors : list violation)
| NameError (name : string)
| OSError (msg : string)
| OverflowError
| KeyboardInterrupt.

Definition is_Exception (e : exn) : bool :=
  match e with
  | KeyboardInterrupt => false
  | _ => true
  end.

Inductive outcome (A : Type) : Type :=
| Returned (a : A)
| Raised (e : exn).
Arguments Returned {A} a.
Arguments Raised {A} e.

(** [timedelta(minutes=m)] and [timedelta(days=d)], in microseconds. *)
Definition timedelta_minutes (m : Z) : Z := m * 60 * 1000000.
Definition timedelta_days (d : Z) : Z := d * 86400 * 1000000.

(** The range of [datetime]: from 0001-01-01T00:00:00 to
    9999-12-31T23:59:59.999999, in microseconds from the epoch. *)
Definition datetime_min : Z := -62135596800 * 1000000.
Definition datetime_max : Z := 253402300799 * 1000000 + 999999.

(** [timedelta(minutes=m)] with its bound: a [timedelta] holds at most
    999999999 days either way and raises [OverflowError] beyond. *)
Definition timedelta_minutes_checked (m : Z) : outcome Z :=
  let days := m * 60 / 86400 in
  if (-999999999 <=? days) && (days <=? 999999999)
  then Returned (timedelta_minutes m)
  else Raised OverflowError.

(** [d - delta] on a [datetime]: [OverflowError] when the result leaves the
    range. *)
Definition datetime_sub (d delta : Z) : outcome Z :=
  let r := d - delta in
  if (datetime_min <=? r) && (r <=? datetime_max)
  then Returned r
  else Raised OverflowError.

(** ** incident/models.py *)

Record Incident : Type := mkIncident {
  id : Z;
  type : string;
  priority : string;
  description : string;
  created_at : Z;
  assigned_to : option string;
  status : string
}.

(** The dictionary [to_dict] builds, one field per key; [created_at] stands
    for its ISO-8601 rendering. *)
Record IncidentData : Type := mkIncidentData {
  data_id : Z;
  data_type : string;
  data_priority : string;
  data_description : string;
  data_created_at : Z;
  data_assigned_to : option string;
  data_status : string
}.

Definition to_dict (self : Incident) : IncidentData :=
  {| data_id := id self;
     data_type := type self;
     data_priority := priority self;
     data_description := description self;
     data_created_at := created_at self;
     data_assigned_to := assigned_to self;
     data_status := status self |}.

Definition from_dict (data : IncidentData) : Incident :=
  {| id := data_id data;
     type := data_type data;
     priority := data_priority data;
     description := data_description data;
     created_at := data_created_at data;
     assigned_to := data_assigned_to data;
     status := data_status data |}.

Definition with_status (self : Incident) (new_status : string) : Incident :=
  {| id := id self;
     type := type self;
     priority := priority self;
     description := description self;
     created_at := created_at self;
     assigned_to := assigned_to self;
     status := new_status |}.

Definition with_assignment (self : Incident) (operator : string) : Incident :=
  {| id := id self;
     type := type self;
     priority := priority self;
     description := description self;
     created_at := created_at self;
     assigned_to := Some operator;
     status := "in_progress" |}.

Record Operator : Type := mkOperator {
  name : string;
  roles : list string;
  available : bool
}.

Definition can_handle (self : Operator) (incident_type : string) : bool :=
  PyStr.mem incident_type (roles self).

(** ** core/validator.py *)

Module IncidentValidator.

Definition VALID_TYPES : list string :=
  ["infrastructure"; "security"; "application"].
Definition VALID_PRIORITIES : list string := ["high"; "medium"; "low"].
Definition VALID_STATUSES : list string :=
  ["pending"; "in_progress"; "resolved"; "escalated"].

Definition validate_type (incident_type : string) : bool :=
  PyStr.mem incident_type VALID_TYPES.

Definition validate_priority (priority : string) : bool :=
  PyStr.mem priority VALID_PRIORITIES.

Definition validate_status (status : string) : bool :=
  PyStr.mem status VALID_STATUSES.

Definition validate_description (description : string) : bool :=
  let n := PyStr.len (PyStr.strip description) in
  (5 <=? n) && (n <=? 500).

(** The character class [[a-zA-Z0-9\s]] of the operator-name pattern. *)
Definition name_char (c : ascii) : bool :=
  let n := Z.of_N (N_of_ascii c) in
  ((97 <=? n) && (n <=? 122)) || ((65 <=? n) && (n <=? 90))
  || ((48 <=? n) && (n <=? 57)) || PyStr.isspace c.

(** [re.match(r'^[a-zA-Z0-9\s]{2,50}$', name.strip())].  A stripped string
    has no trailing newline, so [$] can only match at its very end. *)
Definition validate_operator_name (name : string) : bool :=
  let s := PyStr.strip name in
  PyStr.forall_chars name_char s
  && (2 <=? PyStr.len s) && (PyStr.len s <=? 50).

Definition validate_all_incident_data
    (incident_type priority description : string) : list violation :=
  let errors := [] in
  let errors :=
    if negb (validate_type incident_type)
    then errors ++ [InvalidType] else errors in
  let errors :=
    if negb (validate_priority priority)
    then errors ++ [InvalidPriority] else errors in
  let errors :=
    if negb (validate_description description)
    then errors ++ [InvalidDescription] else errors in
  errors.

End IncidentValidator.

(** Exceptions are threaded with the state: a computation over a state [S]
    returns its outcome and the state it leaves. *)
Definition M (S A : Type) : Type := S -> outcome A * S.

(** The decorator [validate_input(validator_func, error_message)].  Its
    wrapper tests [len(args) > 1 and not validator_func(args[1])], where
    [args] holds [self] and the arguments passed by position.  [arg1] is
    [args[1]] when the call passes an argument by position after [self],
    and [None] when every argument is passed by keyword: the guard
    [len(args) > 1] then fails and the function is called unchecked. *)
Definition validate_input {S A : Type}
    (validator_func : string -> bool) (error_message : string)
    (arg1 : option string) (func : M S A) : M S A :=
  fun self =>
    match arg1 with
    | Some x =>
        if negb (validator_func x)
        then (Raised (ValueError error_message []), self)
        else func self
    | None => func self
    end.

(** The decorator [log_operation]: the result is returned and an exception
    is raised again as it came. *)
Definition log_operation {S A : Type} (func : M S A) : M S A :=
  fun self =>
    match func self with
    | (Returned result, self') => (Returned result, self')
    | (Raised e, self') => (Raised e, self')
    end.

(** [try: body except Exception as e: handler] *)
Definition try_except_Exception {S A : Type}
    (body : M S A) (handler : exn -> M S A) : M S A :=
  fun self =>
    match body self with
    | (Returned a, self') => (Returned a, self')
    | (Raised e, self') =>
        if is_Exception e then handler e self' else (Raised e, self')
    end.

(** ** core/escalator.py *)

Inductive EscalationStrategy : Type :=
| TimeBasedEscalation (minutes_threshold : Z)
| PriorityBasedEscalation (auto_escalate_high : bool)
| CompositeEscalation (strategies : list EscalationStrategy).

(** [incident.status not in ["pending", "in_progress"]] is [negb] of this. *)
Definition status_is_open (incident : Incident) : bool :=
  PyStr.mem (status incident) ["pending"; "in_progress"].

Fixpoint should_escalate (self : EscalationStrategy) (now : Z)
    (incident : Incident) : bool :=
  match self with
  | TimeBasedEscalation minutes_threshold =>
      if negb (status_is_open incident) then false
      else
        let time_elapsed := now - created_at incident in
        timedelta_minutes minutes_threshold <? time_elapsed
  | PriorityBasedEscalation auto_escalate_high =>
      if negb auto_escalate_high
         || negb (priority incident =? "high")%string
      then false
      else if negb (status_is_open incident) then false
      else
        let time_elapsed := now - created_at incident in
        timedelta_minutes 15 <? time_elapsed
  | CompositeEscalation strategies =>
      (fix any (l : list EscalationStrategy) : bool :=
         match l with
         | [] => false
         | strategy :: r => should_escalate strategy now incident || any r
         end) strategies
  end.

Module IncidentEscalator.

(** The strategy every dispatcher is built with. *)
Definition default_strategy : EscalationStrategy :=
  CompositeEscalation [TimeBasedEscalation 30; PriorityBasedEscalation true].

Definition find_escalatable_incidents (strategy : EscalationStrategy)
    (now : Z) (incidents : list Incident) : list Incident :=
  filter (should_escalate strategy now) incidents.

Definition escalate_incident (incident : Incident) : Incident :=
  with_status incident "escalated".

End IncidentEscalator.

(** ** incident/filters.py *)

Module IncidentFilter.
Section Filters.
(** [re_search pattern description]: whether [by_text] keeps a
    description, by [re.search] with [re.IGNORECASE] or, for a pattern
    that does not compile, by case-insensitive containment. *)
Variable re_search : string -> string -> bool.

Definition by_text (incidents : list Incident) (pattern : string)
  : list Incident :=
  filter (fun incident => re_search pattern (description incident))
         incidents.

Definition by_type (incidents : list Incident) (incident_type : string)
  : list Incident :=
  filter (fun incident => (type incident =? incident_type)%string)
         incidents.

Definition by_operator (incidents : list Incident) (operator : string)
  : list Incident :=
  filter (fun incident =>
            match assigned_to incident with
            | Some o => (o =? operator)%string
            | None => false
            end) incidents.

Definition by_status (incidents : list Incident) (status_ : string)
  : list Incident :=
  filter (fun incident => (status incident =? status_)%string) incidents.

Definition by_priority (incidents : list Incident) (priority_ : string)
  : list Incident :=
  filter (fun incident => (priority incident =? priority_)%string)
         incidents.

Definition by_date_range (incidents : list Incident)
    (start_date end_date : option Z) : list Incident :=
  filter (fun incident =>
            negb (match start_date with
                  | Some s => created_at incident <? s
                  | None => false
                  end)
            && negb (match end_date with
                     | Some e => e <? created_at incident
                     | None => false
                     end)) incidents.
End Filters.

(** [expired_incidents(incidents, minutes)], read at the clock [now] and
    consumed to its end.  The cutoff is computed before the first incident
    is looked at, so the [OverflowError] of [timedelta] or of the
    subtraction is raised whatever the incidents are. *)
Definition expired_incidents (now : Z) (incidents : list Incident)
    (minutes : Z) : outcome (list Incident) :=
  match timedelta_minutes_checked minutes with
  | Raised e => Raised e
  | Returned delta =>
      match datetime_sub now delta with
      | Raised e => Raised e
      | Returned cutoff_time =>
          Returned
            (filter (fun incident =>
                       status_is_open incident
                       && (created_at incident <? cutoff_time))
                    incidents)
      end
  end.

(** [create_composite_filter] of some filters: they are applied in sequence,
    each to the result of the one before. *)
Definition create_composite_filter
    (filters : list (list Incident -> list Incident))
    (incidents : list Incident) : list Incident :=
  fold_left (fun result filter_func => filter_func result) filters incidents.
End IncidentFilter.

(** ** rules/default_rules.py *)

Definition get_default_rules : list (string * list string) :=
  [("infrastructure", ["admin"; "network_engineer"; "system_admin"]);
   ("security", ["security_analyst"; "admin"; "incident_responder"]);
   ("application", ["developer"; "app_support"; "admin"])].

Definition get_default_operators : list Operator :=
  [mkOperator "carlos" ["admin"; "system_admin"] true;
   mkOperator "ana" ["security_analyst"; "incident_responder"] true;
   mkOperator "miguel" ["developer"; "app_support"] true;
   mkOperator "sofia" ["network_engineer"; "system_admin"] true;
   mkOperator "admin"
     ["admin"; "security_analyst"; "developer"; "network_engineer"] true].

(** ** persistence/storage.py *)

(** What the session and the storage adapter do, in the order they do it:
    log records and the write of the incidents file.  A log record carries
    the fixed text of its message, without the values interpolated in it. *)
Inductive event : Type :=
| LogInfo (msg : string)
| LogWarning (msg : string)
| LogError (msg : string)
| FileWritten (incidents_data : list IncidentData).

(** The storage manager together with the file system it writes to.
    [incidents_file] is the content of [incidents.json] when it exists;
    [write_fault] is the exception [open] raises when the file cannot be
    written.  Backup rotation catches its own errors and decides nothing of
    the result, and is left out. *)
Record StorageManager : Type := mkStorage {
  incidents_file : option (list IncidentData);
  write_fault : option exn
}.

Module Storage.

Definition save_incidents (self : StorageManager)
    (incidents_data : list IncidentData)
  : outcome unit * StorageManager * list event :=
  match write_fault self with
  | None =>
      (Returned tt,
       {| incidents_file := Some incidents_data;
          write_fault := write_fault self |},
       [FileWritten incidents_data; LogInfo "Guardados incidentes"])
  | Some e =>
      if is_Exception e
      then (Raised e, self, [LogError "Error guardando incidentes"])
      else (Raised e, self, [])
  end.

Definition load_incidents (self : StorageManager) : list IncidentData :=
  match incidents_file self with
  | None => []
  | Some incidents => incidents
  end.

End Storage.

(** ** core/dispatcher.py *)

(** One entry of [self.history].  [operator] is [None] when the entry has
    no ['operator'] key and [Some v] when the key holds [v]. *)
Record HistoryEntry : Type := mkHistoryEntry {
  timestamp : Z;
  action : string;
  incident_id : Z;
  operator : option (option string);
  details : string
}.

Record IncidentDispatcher : Type := mkDispatcher {
  storage : StorageManager;
  incidents : list (Z * Incident);
  pending_queue : list Incident;
  operators : list (string * Operator);
  type_to_roles : list (string * list string);
  history : list HistoryEntry;
  next_id : Z;
  escalator : EscalationStrategy
}.

(** The names bound in the module namespace of [core/dispatcher.py]: its
    imports (lines 5 to 16), [logger] and the class itself. *)
Definition dispatcher_globals : list string :=
  ["deque"; "defaultdict"; "datetime"; "Optional"; "Dict"; "Set"; "List";
   "Iterator"; "contextmanager"; "logging"; "Incident"; "Operator";
   "IncidentFilter"; "IncidentEscalator"; "CompositeEscalation";
   "TimeBasedEscalation"; "PriorityBasedEscalation"; "IncidentValidator";
   "log_operation"; "validate_input"; "get_default_rules";
   "get_default_operators"; "StorageManager"; "logger";
   "IncidentDispatcher"].

(** Looking a global name up: a name that is not bound raises [NameError]. *)
Definition load_global (name : string) : outcome unit :=
  if PyStr.mem name dispatcher_globals then Returned tt
  else Raised (NameError name).

Definition set_incidents (self : IncidentDispatcher) (v : list (Z * Incident))
  : IncidentDispatcher :=
  mkDispatcher (storage self) v (pending_queue self) (operators self)
    (type_to_roles self) (history self) (next_id self) (escalator self).

Definition set_pending_queue (self : IncidentDispatcher) (v : list Incident)
  : IncidentDispatcher :=
  mkDispatcher (storage self) (incidents self) v (operators self)
    (type_to_roles self) (history self) (next_id self) (escalator self).

Definition set_operators (self : IncidentDispatcher)
    (v : list (string * Operator)) : IncidentDispatcher :=
  mkDispatcher (storage self) (incidents self) (pending_queue self) v
    (type_to_roles self) (history self) (next_id self) (escalator self).

Definition set_history (self : IncidentDispatcher) (v : list HistoryEntry)
  : IncidentDispatcher :=
  mkDispatcher (storage self) (incidents self) (pending_queue self)
    (operators self) (type_to_roles self) v (next_id self) (escalator self).

Definition set_next_id (self : IncidentDispatcher) (v : Z)
  : IncidentDispatcher :=
  mkDispatcher (storage self) (incidents self) (pending_queue self)
    (operators self) (type_to_roles self) (history self) v (escalator self).

Definition set_storage (self : IncidentDispatcher) (v : StorageManager)
  : IncidentDispatcher :=
  mkDispatcher v (incidents self) (pending_queue self)
    (operators self) (type_to_roles self) (history self) (next_id self)
    (escalator self).

(** [_add_to_queue]: [appendleft] for high priority, [append] otherwise. *)
Definition _add_to_queue (self : IncidentDispatcher) (incident : Incident)
  : IncidentDispatcher :=
  if (priority incident =? "high")%string
  then set_pending_queue self (incident :: pending_queue self)
  else set_pending_queue self (pending_queue self ++ [incident]).

(** [deque(inc for inc in self.pending_queue if inc.id != incident_id)] *)
Definition queue_without (queue : list Incident) (incident_id : Z)
  : list Incident :=
  filter (fun inc => negb (id inc =? incident_id)) queue.

(** One turn of the loop of [_load_persisted_data]. *)
Definition load_one (self : IncidentDispatcher) (incident_data : IncidentData)
  : IncidentDispatcher :=
  let incident := from_dict incident_data in
  let self :=
    set_incidents self
      (dict_set Z.eqb (incidents self) (id incident) incident) in
  let self :=
    if (status incident =? "pending")%string
    then _add_to_queue self incident else self in
  set_next_id self (Z.max (next_id self) (id incident + 1)).

Definition _load_persisted_data (self : IncidentDispatcher)
  : IncidentDispatcher :=
  fold_left load_one (Storage.load_incidents (storage self)) self.

(** [_initialize_system]: persisted data, default rules, and the default
    operators when the registry is empty. *)
Definition _initialize_system (self : IncidentDispatcher)
  : IncidentDispatcher :=
  let self := _load_persisted_data self in
  let self :=
    mkDispatcher (storage self) (incidents self) (pending_queue self)
      (operators self)
      (fold_left (fun m kv => dict_set String.eqb m (fst kv) (snd kv))
                 get_default_rules (type_to_roles self))
      (history self) (next_id self) (escalator self) in
  match operators self with
  | [] =>
      fold_left
        (fun self operator =>
           set_operators self
             (dict_set String.eqb (operators self) (name operator) operator))
        get_default_operators self
  | _ => self
  end.

(** [IncidentDispatcher(storage_manager)] *)
Definition new_dispatcher (storage_manager : StorageManager)
  : IncidentDispatcher :=
  _initialize_system
    {| storage := storage_manager;
       incidents := [];
       pending_queue := [];
       operators := [];
       type_to_roles := [];
       history := [];
       next_id := 1;
       escalator := IncidentEscalator.default_strategy |}.

(** A storage with no incidents file and no fault. *)
Definition empty_storage : StorageManager :=
  {| incidents_file := None; write_fault := None |}.

(** The history entries the four operations append. *)
Definition created_entry (now : Z) (incident : Incident)
    (incident_type priority_ : string) : HistoryEntry :=
  {| timestamp := now;
     action := "created";
     incident_id := id incident;
     operator := None;
     details :=
       String.append "Creado: "
         (String.append incident_type (String.append " - " priority_)) |}.

Definition assigned_entry (now : Z) (incident_id_ : Z)
    (operator_name : string) : HistoryEntry :=
  {| timestamp := now;
     action := "assigned";
     incident_id := incident_id_;
     operator := Some (Some operator_name);
     details := String.append "Asignado a " operator_name |}.

(** [incident.assigned_to or 'sistema'] *)
Definition assignee_or_sistema (incident : Incident) : string :=
  match assigned_to incident with
  | Some o => if PyStr.truthy o then o else "sistema"
  | None => "sistema"
  end.

Definition resolved_entry (now : Z) (incident_id_ : Z)
    (incident : Incident) : HistoryEntry :=
  {| timestamp := now;
     action := "resolved";
     incident_id := incident_id_;
     operator := Some (assigned_to incident);
     details := String.append "Resuelto por " (assignee_or_sistema incident) |}.

Definition escalated_entry (now : Z) (incident : Incident) : HistoryEntry :=
  {| timestamp := now;
     action := "escalated";
     incident_id := id incident;
     operator := None;
     details := "Escalado automáticamente por tiempo" |}.

(** The incident [register_incident] creates. *)
Definition new_incident (self : IncidentDispatcher) (now : Z)
    (incident_type priority_ description_ : string) : Incident :=
  {| id := next_id self;
     type := incident_type;
     priority := priority_;
     description := PyStr.strip description_;
     created_at := now;
     assigned_to := None;
     status := "pending" |}.

(** The second half of the body of [register_incident]: the incident is
    created, stored and queued, the counter moves on and the history gets
    its entry. *)
Definition store_new_incident (self : IncidentDispatcher) (now : Z)
    (incident_type priority_ description_ : string) : IncidentDispatcher :=
  let incident :=
    new_incident self now incident_type priority_ description_ in
  let self :=
    set_incidents self
      (dict_set Z.eqb (incidents self) (id incident) incident) in
  let self := _add_to_queue self incident in
  let self := set_next_id self (next_id self + 1) in
  set_history self
    (history self ++ [created_entry now incident incident_type priority_]).

(** The body of [register_incident] inside its [try]. *)
Definition register_incident_body (now : Z)
    (incident_type priority_ description_ : string)
  : M IncidentDispatcher (option Z) :=
  fun self =>
    let errors :=
      IncidentValidator.validate_all_incident_data
        incident_type priority_ description_ in
    match errors with
    | _ :: _ => (Raised (ValueError "Datos inválidos" errors), self)
    | [] =>
        let incident :=
          new_incident self now incident_type priority_ description_ in
        (Returned (Some (id incident)),
         store_new_incident self now incident_type priority_ description_)
    end.

(** How a caller passes [incident_type]: by position, as the presentation
    layer does, or by keyword. *)
Inductive call_form : Type :=
| Positional
| ByKeyword.

(** [register_incident], with its two decorators and its [except Exception]
    handler, which returns [None], called in the given form. *)
Definition register_incident_as (form : call_form)
    (self : IncidentDispatcher) (now : Z)
    (incident_type priority_ description_ : string)
  : outcome (option Z) * IncidentDispatcher :=
  log_operation
    (validate_input
       (fun x => PyStr.truthy (PyStr.strip x)) "Tipo de incidente inválido"
       (match form with
        | Positional => Some incident_type
        | ByKeyword => None
        end)
       (try_except_Exception
          (register_incident_body now incident_type priority_ description_)
          (fun _ self => (Returned None, self))))
    self.

(** [self.dispatcher.register_incident(incident_type, priority,
    description)]: the call with positional arguments. *)
Definition register_incident (self : IncidentDispatcher) (now : Z)
    (incident_type priority_ description_ : string)
  : outcome (option Z) * IncidentDispatcher :=
  register_incident_as Positional self now incident_type priority_
    description_.

Definition get_pending_incidents (self : IncidentDispatcher)
  : list Incident :=
  pending_queue self.

Definition get_incidents_by_status (self : IncidentDispatcher)
    (status_ : string) : list Incident :=
  filter (fun incident => (status incident =? status_)%string)
         (dict_values (incidents self)).

(** [assign_incident].  No statement of its body raises on the modelled
    data, so [log_operation] and the [try] around the body are transparent
    and the result is the boolean itself. *)
Definition assign_incident (self : IncidentDispatcher) (now : Z)
    (incident_id_ : Z) (operator_name : string)
  : bool * IncidentDispatcher :=
  match dict_get Z.eqb (incidents self) incident_id_ with
  | None => (false, self)
  | Some incident =>
      if negb (status incident =? "pending")%string then (false, self)
      else
        match dict_get String.eqb (operators self) operator_name with
        | None => (false, self)
        | Some operator_ =>
            if negb (available operator_) then (false, self)
            else if negb (can_handle operator_ (type incident))
            then (false, self)
            else
              let updated_incident :=
                with_assignment incident operator_name in
              let self :=
                set_incidents self
                  (dict_set Z.eqb (incidents self) incident_id_
                     updated_incident) in
              let self :=
                set_pending_queue self
                  (queue_without (pending_queue self) incident_id_) in
              let self :=
                set_history self
                  (history self
                   ++ [assigned_entry now incident_id_ operator_name]) in
              (true, self)
        end
  end.

(** [resolve_incident], under the same remark as [assign_incident]. *)
Definition resolve_incident (self : IncidentDispatcher) (now : Z)
    (incident_id_ : Z) : bool * IncidentDispatcher :=
  match dict_get Z.eqb (incidents self) incident_id_ with
  | None => (false, self)
  | Some incident =>
      if negb (status_is_open incident) then (false, self)
      else
        let resolved_incident := with_status incident "resolved" in
        let self :=
          set_incidents self
            (dict_set Z.eqb (incidents self) incident_id_ resolved_incident) in
        let self :=
          set_pending_queue self
            (queue_without (pending_queue self) incident_id_) in
        let self :=
          set_history self
            (history self ++ [resolved_entry now incident_id_ incident]) in
        (true, self)
  end.

(** One turn of the loop of [auto_escalate_incidents]. *)
Definition escalate_step (now : Z) (acc : Z * IncidentDispatcher)
    (incident : Incident) : Z * IncidentDispatcher :=
  let '(escalated_count, self) := acc in
  let escalated_incident := IncidentEscalator.escalate_incident incident in
  let self :=
    set_incidents self
      (dict_set Z.eqb (incidents self) (id incident) escalated_incident) in
  let self :=
    set_pending_queue self
      (queue_without (pending_queue self) (id incident)) in
  let self :=
    set_history self (history self ++ [escalated_entry now incident]) in
  (escalated_count + 1, self).

(** The incidents the sweep of [auto_escalate_incidents] escalates: the
    pending ones, then those in progress, kept when the strategy says so.
    The list is built from a snapshot before the loop changes anything. *)
Definition escalation_hits (self : IncidentDispatcher) (now : Z)
  : list Incident :=
  let pending_incidents :=
    get_incidents_by_status self "pending"
    ++ get_incidents_by_status self "in_progress" in
  IncidentEscalator.find_escalatable_incidents
    (escalator self) now pending_incidents.

Definition auto_escalate_incidents (self : IncidentDispatcher) (now : Z)
  : Z * IncidentDispatcher :=
  fold_left (escalate_step now) (escalation_hits self now) (0, self).

Section Search.
Variable re_search : string -> string -> bool.

(** The body of [search_incidents] inside its [try].  [timedelta] is
    looked up in the module namespace when the date filter is on. *)
Definition search_incidents_body (self : IncidentDispatcher) (now : Z)
    (text incident_type operator_ status_ : string) (days_back : Z)
  : outcome (list Incident) :=
  let incidents_ := dict_values (incidents self) in
  let incidents_ :=
    if PyStr.truthy text
    then IncidentFilter.by_text re_search incidents_ text
    else incidents_ in
  let incidents_ :=
    if PyStr.truthy incident_type
    then IncidentFilter.by_type incidents_ incident_type
    else incidents_ in
  let incidents_ :=
    if PyStr.truthy operator_
    then IncidentFilter.by_operator incidents_ operator_
    else incidents_ in
  let incidents_ :=
    if PyStr.truthy status_
    then IncidentFilter.by_status incidents_ status_
    else incidents_ in
  if 0 <? days_back then
    match load_global "timedelta" with
    | Raised e => Raised e
    | Returned _ =>
        let start_date := now - timedelta_days days_back in
        Returned
          (IncidentFilter.by_date_range incidents_ (Some start_date) None)
    end
  else Returned incidents_.

(** [search_incidents]: an [Exception] of the body is logged and the
    result is the empty list. *)
Definition search_incidents (self : IncidentDispatcher) (now : Z)
    (text incident_type operator_ status_ : string) (days_back : Z)
  : outcome (list Incident) :=
  match search_incidents_body self now text incident_type operator_
          status_ days_back with
  | Returned l => Returned l
  | Raised e => if is_Exception e then Returned [] else Raised e
  end.
End Search.

(** [self.history[-limit:]] *)
Definition get_history (self : IncidentDispatcher) (limit : Z)
  : list HistoryEntry :=
  slice_from (history self) (- limit).

Definition get_operators (self : IncidentDispatcher)
  : list (string * Operator) :=
  operators self.

Definition add_operator (self : IncidentDispatcher) (name_ : string)
    (roles_ : list string) : bool * IncidentDispatcher :=
  if negb (IncidentValidator.validate_operator_name name_) then (false, self)
  else
    let operator_ :=
      {| name := PyStr.strip name_; roles := roles_; available := true |} in
    (true,
     set_operators self
       (dict_set String.eqb (operators self) (name operator_) operator_)).

(** [_save_data]: the table is serialised and handed to the storage; an
    [Exception] from the storage is logged here and goes no further. *)
Definition _save_data (self : IncidentDispatcher)
  : outcome unit * IncidentDispatcher * list event :=
  let incidents_data := map to_dict (dict_values (incidents self)) in
  let '(r, storage', evs) :=
    Storage.save_incidents (storage self) incidents_data in
  let self' := set_storage self storage' in
  match r with
  | Returned _ => (Returned tt, self', evs)
  | Raised e =>
      if is_Exception e
      then (Returned tt, self', evs ++ [LogError "Error guardando datos"])
      else (Raised e, self', evs)
  end.

(** [with self.incident_session(): body].  The generator logs the start,
    yields to the body, logs and raises again an [Exception] of the body,
    and in its [finally] saves and logs the end.  An exception leaving
    [_save_data] replaces the outcome of the body. *)
Definition incident_session {A : Type} (self : IncidentDispatcher)
    (body : M IncidentDispatcher A)
  : outcome A * IncidentDispatcher * list event :=
  let ev_start := [LogInfo "Iniciando sesión de incidentes"] in
  let '(r, self1) := body self in
  let ev_except :=
    match r with
    | Raised e =>
        if is_Exception e then [LogError "Error en sesión de incidentes"]
        else []
    | Returned _ => []
    end in
  let '(rs, self2, ev_save) := _save_data self1 in
  match rs with
  | Raised e' => (Raised e', self2, ev_start ++ ev_except ++ ev_save)
  | Returned _ =>
      (r, self2,
       ev_start ++ ev_except ++ ev_save
       ++ [LogInfo "Sesión de incidentes finalizada"])
  end.

(** [stats[key] += 1] on a [defaultdict(int)]: a missing key counts from
    zero. *)
Definition incr (stats : list (string * Z)) (key : string)
  : list (string * Z) :=
  dict_set String.eqb stats key
    (match dict_get String.eqb stats key with
     | Some n => n + 1
     | None => 0 + 1
     end).

(** One turn of the loop of [get_statistics]. *)
Definition count_incident (stats : list (string * Z)) (incident : Incident)
  : list (string * Z) :=
  let stats := incr stats "total" in
  let stats := incr stats (String.append "status_" (status incident)) in
  let stats := incr stats (String.append "priority_" (priority incident)) in
  incr stats (String.append "type_" (type incident)).

Definition get_statistics (self : IncidentDispatcher) : list (string * Z) :=
  let stats := fold_left count_incident (dict_values (incidents self)) [] in
  let stats :=
    dict_set String.eqb stats "operators_total"
      (Z.of_nat (List.length (operators self))) in
  dict_set String.eqb stats "operators_available"
    (Z.of_nat
       (List.length
          (filter (fun op => available op) (dict_values (operators self))))).

(** ** Sequences of calls

    The presentation layer drives the dispatcher by calls of its public
    operations, one at a time; a caller that meets an exception goes on
    with the state the call left. *)

Inductive call : Type :=
| RegisterIncident (now : Z) (incident_type priority_ description_ : string)
| AssignIncident (now : Z) (incident_id_ : Z) (operator_name : string)
| ResolveIncident (now : Z) (incident_id_ : Z)
| AutoEscalateIncidents (now : Z)
| AddOperator (name_ : string) (roles_ : list string).

Inductive reply : Type :=
| Registered (r : outcome (option Z))
| Done (ok : bool)
| Escalated (escalated_count : Z).

Definition step (self : IncidentDispatcher) (c : call)
  : reply * IncidentDispatcher :=
  match c with
  | RegisterIncident now ty pr de =>
      let '(r, self') := register_incident self now ty pr de in
      (Registered r, self')
  | AssignIncident now i o =>
      let '(b, self') := assign_incident self now i o in (Done b, self')
  | ResolveIncident now i =>
      let '(b, self') := resolve_incident self now i in (Done b, self')
  | AutoEscalateIncidents now =>
      let '(n, self') := auto_escalate_incidents self now in
      (Escalated n, self')
  | AddOperator n rs =>
      let '(b, self') := add_operator self n rs in (Done b, self')
  end.

Fixpoint run (self : IncidentDispatcher) (calls : list call)
  : list reply * IncidentDispatcher :=
  match calls with
  | [] => ([], self)
  | c :: rest =>
      let '(r, self') := step self c in
      let '(rs, self'') := run self' rest in
      (r :: rs, self'')
  end.

(** The ids that the successful registrations of a run returned, in call
    order. *)
Definition registered_ids (replies : list reply) : list Z :=
  flat_map (fun r =>
              match r with
              | Registered (Returned (Some i)) => [i]
              | _ => []
              end) replies.

(** ** State invariant and the readings of the claims that fail *)

(** What holds of every dispatcher built by [new_dispatcher] and driven by
    calls: the keys of the table are distinct, each incident is stored
    under its own id, every stored id is below [next_id], and the strategy
    is the default one. *)
Record Inv (self : IncidentDispatcher) : Prop := mkInv {
  inv_nodup : NoDup (dict_keys (incidents self));
  inv_key_id : forall k inc, In (k, inc) (incidents self) -> id inc = k;
  inv_fresh : forall k, In k (dict_keys (incidents self)) -> k < next_id self;
  inv_escalator : escalator self = IncidentEscalator.default_strategy
}.

(** The incident stored under [k], if any. *)
Definition stored (self : IncidentDispatcher) (k : Z) : option Incident :=
  dict_get Z.eqb (incidents self) k.

(** No entry of the queue carries the id [k]. *)
Definition not_queued (self : IncidentDispatcher) (k : Z) : Prop :=
  forall q, In q (get_pending_incidents self) -> id q <> k.

Definition is_high (incident : Incident) : bool :=
  (priority incident =? "high")%string.

(** The registrations of a list of (clock, type, priority, description),
    as calls. *)
Definition register_calls (regs : list (Z * string * string * string))
  : list call :=
  map (fun '(now, ty, pr, de) => RegisterIncident now ty pr de) regs.

(** A dispatcher built on a storage that holds no file. *)
Definition fresh_dispatcher : IncidentDispatcher :=
  new_dispatcher empty_storage.

(** Reading of C3 as it is stated: a registration with an invalid field
    raises an error that carries every violated constraint. *)
Definition registration_raises_all_violations : Prop :=
  forall self now ty pr de,
    IncidentValidator.validate_all_incident_data ty pr de <> [] ->
    exists msg,
      fst (register_incident self now ty pr de)
      = Raised (ValueError msg
                  (IncidentValidator.validate_all_incident_data ty pr de)).

(** Reading of C5 as it is stated: in the queue, high priority comes before
    the rest, and within a tier the incident registered earlier (the one
    with the smaller id) comes first. *)
Definition queue_in_registration_order : Prop :=
  forall regs a b (i j : nat),
    let q :=
      get_pending_incidents
        (snd (run fresh_dispatcher (register_calls regs))) in
    nth_error q i = Some a -> nth_error q j = Some b ->
    (is_high a = true /\ is_high b = false)
    \/ (is_high a = is_high b /\ id a < id b) ->
    (i < j)%nat.

(** Reading of C6 as it is stated: a stored incident has an assignee only
    when it is in progress. *)
Definition assignee_only_in_progress (self : IncidentDispatcher) : Prop :=
  forall k inc,
    stored self k = Some inc -> assigned_to inc <> None ->
    status inc = "in_progress".

(** What does hold: an incident that has an assignee has left [pending]. *)
Definition assignee_implies_taken (inc : Incident) : Prop :=
  assigned_to inc <> None ->
  status inc = "in_progress" \/ status inc = "resolved"
  \/ status inc = "escalated".

(** Reading of C9 as it is stated, third part: a failure of the save made
    at the end of a session is raised to the caller of the session. *)
Definition save_failure_reaches_caller : Prop :=
  forall (A : Type) (self : IncidentDispatcher)
         (body : M IncidentDispatcher A) (e : exn),
    write_fault (storage (snd (body self))) = Some e ->
    fst (fst (incident_session self body)) = Raised e.

(** Every incident of the table that has an assignee has left [pending]. *)
Definition table_ok (self : IncidentDispatcher) : Prop :=
  forall k inc, In (k, inc) (incidents self) -> assignee_implies_taken inc.

(** Reading of C6 over runs: after any calls on a fresh dispatcher. *)
Definition assignee_only_in_progress_always : Prop :=
  forall calls,
    assignee_only_in_progress (snd (run fresh_dispatcher calls)).

(** [start], [start + 1], ... : [n] consecutive integers. *)
Fixpoint consecutive (start : Z) (n : nat) : list Z :=
  match n with
  | O => []
  | S m => start :: consecutive (start + 1) m
  end.

(** The scenario of the specification: a high-priority security incident
    registered at time 0 on a fresh dispatcher. *)
Definition breach_incident : Incident :=
  new_incident fresh_dispatcher 0 "security" "high" "server breach".

Definition breach_registered : IncidentDispatcher :=
  snd (register_incident fresh_dispatcher 0 "security" "high" "server breach").

(** A run in which an incident is registered, assigned to an operator
    whose roles hold its type, and resolved. *)
Definition assign_then_resolve : list call :=
  [AddOperator "eve" ["security"];
   RegisterIncident 0 "security" "high" "server breach";
   AssignIncident 1 1 "eve";
   ResolveIncident 2 1].

(** A storage whose file cannot be written. *)
Definition faulty_storage : StorageManager :=
  {| incidents_file := None; write_fault := Some (OSError "disk full") |}.

(** The body of a [with] block that does nothing. *)
Definition pass_body : M IncidentDispatcher unit :=
  fun self => (Returned tt, self).

(** The conjunction of the criteria of a search, as one predicate: what
    the intersection of the filters applied one by one keeps. *)
Definition matches (re_search : string -> string -> bool)
    (text incident_type operator_ status_ : string) (incident : Incident)
  : bool :=
  (if PyStr.truthy text then re_search text (description incident) else true)
  && (if PyStr.truthy incident_type
      then (type incident =? incident_type)%string else true)
  && (if PyStr.truthy operator_
      then match assigned_to incident with
           | Some o => (o =? operator_)%string
           | None => false
           end
      else true)
  && (if PyStr.truthy status_
      then (status incident =? status_)%string else true).

(** ** Notions used by the further properties *)

(** The queue holds exactly the pending incidents of the table: an
    incident is queued if and only if it is the one stored under its id and
    its status is [pending]. *)
Definition queue_consistent (self : IncidentDispatcher) : Prop :=
  forall q,
    In q (pending_queue self) <->
    stored self (id q) = Some q /\ status q = "pending".

(** Two versions of one incident: the fields that no transition writes are
    the same. *)
Definition same_identity (a b : Incident) : Prop :=
  id a = id b /\ type a = type b /\ priority a = priority b
  /\ description a = description b /\ created_at a = created_at b.

Definition is_add_operator (c : call) : bool :=
  match c with
  | AddOperator _ _ => true
  | _ => false
  end.

(** The four actions a history entry can record. *)
Definition history_actions : list string :=
  ["created"; "assigned"; "resolved"; "escalated"].

(** Number of elements of [l] that satisfy [p]. *)
Definition count_where {A : Type} (p : A -> bool) (l : list A) : Z :=
  Z.of_nat (List.length (filter p l)).

(** [stats.get(key)] for a count that is only stored once it is positive. *)
Definition positive_count (n : Z) : option Z :=
  if n =? 0 then None else Some n.

(** The queue is consistent with the table and lists no incident twice. *)
Definition queue_ok (self : IncidentDispatcher) : Prop :=
  queue_consistent self /\ NoDup (pending_queue self).

(** How a stored incident may have changed: its identity is kept, it has
    not gone back to [pending], and it has not changed at all if it was
    neither pending nor in progress. *)
Definition evolves (a b : Incident) : Prop :=
  same_identity a b
  /\ (status a <> "pending" -> status b <> "pending")
  /\ (status_is_open a = false -> b = a).

(** Every incident of the table satisfies [P]. *)
Definition table_all (P : Incident -> Prop) (self : IncidentDispatcher)
  : Prop :=
  forall k inc, In (k, inc) (incidents self) -> P inc.

(** An incident all of whose fields pass the validators. *)
Definition well_formed (inc : Incident) : Prop :=
  IncidentValidator.validate_type (type inc) = true
  /\ IncidentValidator.validate_priority (priority inc) = true
  /\ IncidentValidator.validate_description (description inc) = true
  /\ IncidentValidator.validate_status (status inc) = true.

(** The registry [_initialize_system] builds from the default operators. *)
Definition default_registry : list (string * Operator) :=
  fold_left (fun m operator => dict_set String.eqb m (name operator) operator)
            get_default_operators [].

(** A counter that was [o] and has been incremented [n] times. *)
Definition bump (o : option Z) (n : Z) : option Z :=
  if n =? 0 then o
  else Some (match o with Some m => m | None => 0 end + n).

(** What holds of every registered operator: it is stored under its own
    name, the name passes [validate_operator_name] and is already stripped,
    and the operator is available. *)
Definition operator_ok (n : string) (o : Operator) : Prop :=
  name o = n
  /\ IncidentValidator.validate_operator_name n = true
  /\ PyStr.strip n = n
  /\ available o = true.

Definition registry_ok (self : IncidentDispatcher) : Prop :=
  NoDup (dict_keys (operators self))
  /\ forall n o, In (n, o) (operators self) -> operator_ok n o.

(** Every entry of the history is about an incident of the table. *)
Definition history_refers_to_table (self : IncidentDispatcher) : Prop :=
  forall e,
    In e (history self) ->
    In (incident_id e) (dict_keys (incidents self)).

(** A run in which an incident is registered and assigned, and is in
    progress at the end. *)
Definition register_then_assign : list call :=
  [AddOperator "eve" ["security"];
   RegisterIncident 0 "security" "high" "server breach";
   AssignIncident 1 1 "eve"].

(** * Properties *)

(** ** Strings and dictionaries *)

Lemma mem_In (x : string) (xs : list string) :
  PyStr.mem x xs = true <-> In x xs.
Proof.
  unfold PyStr.mem. rewrite existsb_exists. split.
  - intros [y [Hy He]]. apply String.eqb_eq in He. now subst.
  - intros H. exists x. split; [assumption | apply String.eqb_refl].
Qed.

Lemma status_is_open_iff (inc : Incident) :
  status_is_open inc = true
  <-> status inc = "pending" \/ status inc = "in_progress".
Proof.
  unfold status_is_open. rewrite mem_In. simpl. intuition congruence.
Qed.

Section DictFacts.
Context {K V : Type} (eqb : K -> K -> bool).
Hypothesis eqb_eq : forall a b, eqb a b = true <-> a = b.

Lemma eqb_same (k : K) : eqb k k = true.
Proof. now apply eqb_eq. Qed.

Lemma eqb_diff (a b : K) : a <> b -> eqb a b = false.
Proof.
  intros H. destruct (eqb a b) eqn:E; [|reflexivity].
  apply eqb_eq in E. contradiction.
Qed.

Lemma dict_get_set_same (d : list (K * V)) k v :
  dict_get eqb (dict_set eqb d k v) k = Some v.
Proof.
  induction d as [|[k' v'] r IH]; simpl.
  - now rewrite eqb_same.
  - destruct (eqb k' k) eqn:E; simpl; rewrite E; auto.
Qed.

Lemma dict_get_set_other (d : list (K * V)) k k' v :
  k <> k' -> dict_get eqb (dict_set eqb d k v) k' = dict_get eqb d k'.
Proof.
  intros Hne. induction d as [|[k0 v0] r IH]; simpl.
  - now rewrite eqb_diff.
  - destruct (eqb k0 k) eqn:E; simpl.
    + apply eqb_eq in E. subst k0. now rewrite eqb_diff.
    + now rewrite IH.
Qed.

Lemma dict_get_In (d : list (K * V)) k v :
  dict_get eqb d k = Some v -> In (k, v) d.
Proof.
  induction d as [|[k0 v0] r IH]; simpl; [discriminate|].
  destruct (eqb k0 k) eqn:E.
  - apply eqb_eq in E. intros [= ->]. subst. now left.
  - intros H. right. auto.
Qed.

Lemma dict_get_None (d : list (K * V)) k :
  dict_get eqb d k = None <-> ~ In k (dict_keys d).
Proof.
  induction d as [|[k0 v0] r IH]; simpl.
  - tauto.
  - destruct (eqb k0 k) eqn:E.
    + apply eqb_eq in E. split; [discriminate | intros H; destruct H; auto].
    + rewrite IH. split.
      * intros H [H1|H1]; [|tauto].
        subst. rewrite eqb_same in E. discriminate.
      * tauto.
Qed.

Lemma In_dict_get (d : list (K * V)) k v :
  NoDup (dict_keys d) -> In (k, v) d -> dict_get eqb d k = Some v.
Proof.
  induction d as [|[k0 v0] r IH]; simpl; [tauto|].
  intros Hnd [H|H].
  - injection H as -> ->. now rewrite eqb_same.
  - inversion Hnd as [|? ? Hnotin Hnd']; subst.
    destruct (eqb k0 k) eqn:E.
    + apply eqb_eq in E. subst k0. exfalso. apply Hnotin.
      change (In (fst (k, v)) (map fst r)). now apply in_map.
    + auto.
Qed.

Lemma dict_set_present (d : list (K * V)) k v :
  In k (dict_keys d) -> dict_keys (dict_set eqb d k v) = dict_keys d.
Proof.
  induction d as [|[k0 v0] r IH]; simpl; [tauto|].
  intros H. destruct (eqb k0 k) eqn:E; simpl; [reflexivity|].
  f_equal. apply IH. destruct H as [H|H]; [|assumption].
  subst. rewrite eqb_same in E. discriminate.
Qed.

Lemma dict_set_absent (d : list (K * V)) k v :
  ~ In k (dict_keys d) -> dict_set eqb d k v = d ++ [(k, v)].
Proof.
  induction d as [|[k0 v0] r IH]; simpl; [reflexivity|].
  intros H. destruct (eqb k0 k) eqn:E.
  - apply eqb_eq in E. tauto.
  - f_equal. apply IH. tauto.
Qed.

Lemma dict_set_In (d : list (K * V)) k v k' v' :
  In (k', v') (dict_set eqb d k v) ->
  (k' = k /\ v' = v) \/ In (k', v') d.
Proof.
  induction d as [|[k0 v0] r IH]; simpl.
  - intros [H|[]]. injection H as <- <-. now left.
  - destruct (eqb k0 k) eqn:E.
    + apply eqb_eq in E. subst k0. simpl. intros [H|H].
      * injection H as <- <-. now left.
      * right. now right.
    + simpl. intros [H|H].
      * right. now left.
      * destruct (IH H) as [?|?]; [now left | right; now right].
Qed.

Lemma dict_set_keys_NoDup (d : list (K * V)) k v :
  NoDup (dict_keys d) -> NoDup (dict_keys (dict_set eqb d k v)).
Proof.
  intros Hnd.
  destruct (dict_get eqb d k) eqn:G.
  - rewrite dict_set_present; [assumption|].
    apply dict_get_In in G.
    change (In (fst (k, v0)) (map fst d)). now apply in_map.
  - apply dict_get_None in G. rewrite dict_set_absent by assumption.
    unfold dict_keys in *. rewrite map_app. simpl.
    apply NoDup_app; [assumption | repeat constructor; simpl; tauto |].
    intros x Hx [<-|[]]. contradiction.
Qed.

Lemma dict_set_keys_In (d : list (K * V)) k v k' :
  In k' (dict_keys (dict_set eqb d k v)) <-> k' = k \/ In k' (dict_keys d).
Proof.
  destruct (dict_get eqb d k) eqn:G.
  - assert (Hin : In k (dict_keys d)).
    { apply dict_get_In in G.
      change (In (fst (k, v0)) (map fst d)). now apply in_map. }
    rewrite dict_set_present by assumption.
    split; [tauto | intros [->|?]; assumption].
  - apply dict_get_None in G. rewrite dict_set_absent by assumption.
    unfold dict_keys. rewrite map_app, in_app_iff. simpl.
    split; [intros [?|[?|[]]]; auto | intros [?|?]; auto].
Qed.
End DictFacts.


Lemma queue_without_In (queue : list Incident) (k : Z) (q : Incident) :
  In q (queue_without queue k) <-> In q queue /\ id q <> k.
Proof.
  unfold queue_without. rewrite filter_In, negb_true_iff, Z.eqb_neq.
  reflexivity.
Qed.

(** ** Assignment and resolution *)

(** C1.  [assign_incident] returns [True] exactly when the incident exists
    and is pending and the operator exists, is available and has the
    incident's type among its roles.  On success the stored incident is the
    [with_assignment] result (status [in_progress], assigned to the
    operator), no entry of the queue carries its id, and one [assigned]
    entry is appended to the history; on failure the state is unchanged. *)
Theorem assign_incident_spec
    (self : IncidentDispatcher) (now iid : Z) (opn : string) :
  let ok := fst (assign_incident self now iid opn) in
  let self' := snd (assign_incident self now iid opn) in
  (ok = true <->
   exists inc o,
     stored self iid = Some inc /\ status inc = "pending"
     /\ dict_get String.eqb (operators self) opn = Some o
     /\ available o = true /\ In (type inc) (roles o))
  /\ (ok = true ->
      exists inc,
        stored self iid = Some inc
        /\ stored self' iid = Some (with_assignment inc opn)
        /\ status (with_assignment inc opn) = "in_progress"
        /\ assigned_to (with_assignment inc opn) = Some opn
        /\ not_queued self' iid
        /\ history self' = history self ++ [assigned_entry now iid opn]
        /\ action (assigned_entry now iid opn) = "assigned")
  /\ (ok = false -> self' = self).
Proof.
  unfold assign_incident, stored, not_queued, get_pending_incidents.
  destruct (dict_get Z.eqb (incidents self) iid) as [inc|] eqn:Gi; simpl.
  2:{ repeat split; try discriminate.
      intros (inc & o & H & _). discriminate. }
  destruct (status inc =? "pending")%string eqn:Es; simpl.
  2:{ repeat split; try discriminate.
      intros (inc' & o & [= <-] & Hs & _).
      apply String.eqb_neq in Es. contradiction. }
  apply String.eqb_eq in Es.
  destruct (dict_get String.eqb (operators self) opn) as [o|] eqn:Go; simpl.
  2:{ repeat split; try discriminate.
      intros (inc' & o & _ & _ & H & _). discriminate. }
  destruct (available o) eqn:Ea; simpl.
  2:{ repeat split; try discriminate.
      intros (inc' & o' & _ & _ & [= <-] & H & _). congruence. }
  unfold can_handle.
  destruct (PyStr.mem (type inc) (roles o)) eqn:Em; simpl.
  2:{ repeat split; try discriminate.
      intros (inc' & o' & [= <-] & _ & [= <-] & _ & H).
      apply mem_In in H. congruence. }
  apply mem_In in Em. split; [|split].
  - split; [|reflexivity]. intros _. exists inc, o. auto.
  - intros _. exists inc. repeat split.
    + apply dict_get_set_same. apply Z.eqb_eq.
    + intros q Hq. apply queue_without_In in Hq. tauto.
  - discriminate.
Qed.

(** C2.  [resolve_incident] returns [True] exactly when the incident exists
    and its status is [pending] or [in_progress]; it returns [False] for a
    resolved or an escalated incident.  On success the stored incident is the
    [with_status "resolved"] result, the queue loses the entries with that
    id and keeps the others, and one [resolved] entry is appended. *)
Theorem resolve_incident_spec
    (self : IncidentDispatcher) (now iid : Z) :
  let ok := fst (resolve_incident self now iid) in
  let self' := snd (resolve_incident self now iid) in
  (ok = true <->
   exists inc,
     stored self iid = Some inc
     /\ (status inc = "pending" \/ status inc = "in_progress"))
  /\ (forall inc,
        stored self iid = Some inc ->
        status inc = "resolved" \/ status inc = "escalated" ->
        ok = false /\ self' = self)
  /\ (ok = true ->
      exists inc,
        stored self iid = Some inc
        /\ stored self' iid = Some (with_status inc "resolved")
        /\ status (with_status inc "resolved") = "resolved"
        /\ not_queued self' iid
        /\ (forall q, In q (get_pending_incidents self') <->
                      In q (get_pending_incidents self) /\ id q <> iid)
        /\ history self' = history self ++ [resolved_entry now iid inc]
        /\ action (resolved_entry now iid inc) = "resolved").
Proof.
  unfold resolve_incident, stored, not_queued, get_pending_incidents.
  destruct (dict_get Z.eqb (incidents self) iid) as [inc|] eqn:Gi; simpl.
  2:{ repeat split; try discriminate.
      intros (inc & H & _). discriminate. }
  destruct (status_is_open inc) eqn:Eo; simpl.
  - apply status_is_open_iff in Eo. split; [|split].
    + split; [|reflexivity]. intros _. exists inc. auto.
    + intros inc' [= <-] [H|H]; destruct Eo; congruence.
    + intros _. exists inc. split; [reflexivity|].
      split; [apply dict_get_set_same; apply Z.eqb_eq|].
      split; [reflexivity|].
      split; [intros q Hq; apply queue_without_In in Hq; tauto|].
      split; [intros q; apply queue_without_In|].
      split; reflexivity.
  - split; [|split].
    + split; [discriminate|]. intros (inc' & [= <-] & H).
      apply status_is_open_iff in H. congruence.
    + auto.
    + discriminate.
Qed.

(** ** History *)

Lemma slice_from_suffix {A : Type} (l : list A) (start : Z) :
  exists older, l = older ++ slice_from l start.
Proof.
  unfold slice_from. eexists. symmetry. apply firstn_skipn.
Qed.

(** C10.  For a positive [limit], [get_history] returns the last
    [min(limit, len(history))] entries, in the order of the log; for
    [limit = 0] it returns the whole history, because [history[-0:]] is
    [history[0:]]. *)
Theorem get_history_spec (self : IncidentDispatcher) (limit : Z) :
  (0 < limit ->
   (exists older, history self = older ++ get_history self limit)
   /\ Z.of_nat (List.length (get_history self limit))
      = Z.min limit (Z.of_nat (List.length (history self))))
  /\ (limit = 0 -> get_history self limit = history self).
Proof.
  unfold get_history. split.
  - intros Hpos. split; [apply slice_from_suffix|].
    unfold slice_from. rewrite length_skipn.
    destruct (- limit <? 0) eqn:E; [|apply Z.ltb_ge in E; lia].
    lia.
  - intros ->. unfold slice_from. simpl. 
    replace (Z.to_nat (Z.min 0 (Z.of_nat (List.length (history self)))))
      with 0%nat by lia.
    reflexivity.
Qed.

(** ** The invariant *)

Lemma Z_eqb_spec : forall a b : Z, (a =? b) = true <-> a = b.
Proof. exact Z.eqb_eq. Qed.

Lemma stored_In (self : IncidentDispatcher) (k : Z) (inc : Incident) :
  stored self k = Some inc -> In (k, inc) (incidents self).
Proof. apply dict_get_In. exact Z_eqb_spec. Qed.

Lemma stored_id (self : IncidentDispatcher) (k : Z) (inc : Incident) :
  Inv self -> stored self k = Some inc -> id inc = k.
Proof. intros HI H. eapply inv_key_id; eauto using stored_In. Qed.

Lemma value_stored (self : IncidentDispatcher) (inc : Incident) :
  Inv self -> In inc (dict_values (incidents self)) ->
  stored self (id inc) = Some inc.
Proof.
  intros HI H. unfold dict_values in H. apply in_map_iff in H.
  destruct H as [[k v] [Hv Hin]]. simpl in Hv. subst v.
  rewrite (inv_key_id _ HI _ _ Hin).
  apply In_dict_get; [exact Z_eqb_spec | apply HI | assumption].
Qed.

Lemma stored_value (self : IncidentDispatcher) (k : Z) (inc : Incident) :
  stored self k = Some inc -> In inc (dict_values (incidents self)).
Proof.
  intros H. apply stored_In in H. unfold dict_values.
  change inc with (snd (k, inc)). now apply in_map.
Qed.

Lemma stored_key (self : IncidentDispatcher) (k : Z) (inc : Incident) :
  stored self k = Some inc -> In k (dict_keys (incidents self)).
Proof.
  intros H. apply stored_In in H. unfold dict_keys.
  change k with (fst (k, inc)). now apply in_map.
Qed.

(** Storing an incident under its own id, below the counter, keeps the
    invariant, whatever happens to the queue, the history, the operators
    and the storage. *)
Lemma Inv_store (self self' : IncidentDispatcher) (inc : Incident) :
  Inv self ->
  incidents self' = dict_set Z.eqb (incidents self) (id inc) inc ->
  id inc < next_id self' -> next_id self <= next_id self' ->
  escalator self' = escalator self ->
  Inv self'.
Proof.
  intros [Hnd Hk Hf He] Hi Hlt Hle Hesc. constructor.
  - rewrite Hi. now apply dict_set_keys_NoDup; [exact Z_eqb_spec|].
  - rewrite Hi. intros k v Hin.
    apply (dict_set_In _ Z_eqb_spec) in Hin. destruct Hin as [[-> ->]|Hin]; auto.
  - rewrite Hi. intros k Hin.
    apply (dict_set_keys_In _ Z_eqb_spec) in Hin.
    destruct Hin as [->|Hin]; [assumption|]. specialize (Hf _ Hin). lia.
  - congruence.
Qed.

Lemma Inv_same_table (self self' : IncidentDispatcher) :
  Inv self -> incidents self' = incidents self ->
  next_id self <= next_id self' -> escalator self' = escalator self ->
  Inv self'.
Proof.
  intros [Hnd Hk Hf He] Hi Hle Hesc. constructor; rewrite ?Hi; auto.
  - intros k Hin. specialize (Hf _ Hin). lia.
  - congruence.
Qed.

Lemma add_to_queue_fields (self : IncidentDispatcher) (inc : Incident) :
  incidents (_add_to_queue self inc) = incidents self
  /\ next_id (_add_to_queue self inc) = next_id self
  /\ escalator (_add_to_queue self inc) = escalator self
  /\ history (_add_to_queue self inc) = history self
  /\ operators (_add_to_queue self inc) = operators self
  /\ storage (_add_to_queue self inc) = storage self.
Proof. unfold _add_to_queue. destruct (_ =? _)%string; simpl; auto 10. Qed.

Lemma load_one_fields (self : IncidentDispatcher) (x : IncidentData) :
  incidents (load_one self x)
  = dict_set Z.eqb (incidents self) (id (from_dict x)) (from_dict x)
  /\ next_id (load_one self x) = Z.max (next_id self) (id (from_dict x) + 1)
  /\ escalator (load_one self x) = escalator self
  /\ history (load_one self x) = history self.
Proof.
  unfold load_one, _add_to_queue.
  destruct (status (from_dict x) =? "pending")%string;
    [destruct (priority (from_dict x) =? "high")%string|]; simpl; auto.
Qed.

Lemma load_persisted_Inv (data : list IncidentData) (self : IncidentDispatcher) :
  Inv self -> Inv (fold_left load_one data self).
Proof.
  revert self. induction data as [|x data IH]; intros self HI; simpl.
  - assumption.
  - apply IH. destruct (load_one_fields self x) as (Hi & Hn & He & _).
    eapply Inv_store with (inc := from_dict x); eauto; lia.
Qed.

Lemma fold_operators_fields (ops : list Operator) (self : IncidentDispatcher) :
  let self' :=
    fold_left
      (fun self operator =>
         set_operators self
           (dict_set String.eqb (operators self) (name operator) operator))
      ops self in
  incidents self' = incidents self /\ next_id self' = next_id self
  /\ escalator self' = escalator self
  /\ pending_queue self' = pending_queue self
  /\ history self' = history self.
Proof.
  revert self. induction ops as [|o ops IH]; intros self; simpl; auto.
  specialize (IH (set_operators self
                    (dict_set String.eqb (operators self) (name o) o))).
  simpl in IH. exact IH.
Qed.

Lemma initialize_fields (self : IncidentDispatcher) :
  incidents (_initialize_system self) = incidents (_load_persisted_data self)
  /\ next_id (_initialize_system self) = next_id (_load_persisted_data self)
  /\ escalator (_initialize_system self)
     = escalator (_load_persisted_data self)
  /\ pending_queue (_initialize_system self)
     = pending_queue (_load_persisted_data self)
  /\ history (_initialize_system self) = history (_load_persisted_data self).
Proof.
  unfold _initialize_system. cbv zeta.
  set (s1 := _load_persisted_data self).
  set (s2 := mkDispatcher _ _ _ _ _ _ _ _).
  change (operators s2) with (operators s1).
  destruct (operators s1) eqn:E.
  - pose proof (fold_operators_fields get_default_operators s2) as H.
    cbv zeta in H. exact H.
  - simpl. auto.
Qed.

Lemma new_dispatcher_Inv (st : StorageManager) : Inv (new_dispatcher st).
Proof.
  unfold new_dispatcher.
  set (s0 := {| storage := st; incidents := [] |}).
  destruct (initialize_fields s0) as (Hi & Hn & He & _).
  assert (H0 : Inv s0).
  { constructor; simpl; [constructor | tauto | tauto | reflexivity]. }
  pose proof (load_persisted_Inv (Storage.load_incidents (storage s0)) s0 H0)
    as H1.
  change (Inv (_load_persisted_data s0)) in H1.
  eapply Inv_same_table; [exact H1 | assumption | lia | assumption].
Qed.

(** ** Registration *)

Lemma valid_type_not_blank (ty : string) :
  IncidentValidator.validate_type ty = true ->
  PyStr.truthy (PyStr.strip ty) = true.
Proof.
  intros H. apply mem_In in H. simpl in H.
  destruct H as [<-|[<-|[<-|[]]]]; reflexivity.
Qed.

Lemma no_violation_iff (ty pr de : string) :
  IncidentValidator.validate_all_incident_data ty pr de = []
  <-> IncidentValidator.validate_type ty = true
      /\ IncidentValidator.validate_priority pr = true
      /\ IncidentValidator.validate_description de = true.
Proof.
  unfold IncidentValidator.validate_all_incident_data.
  destruct (IncidentValidator.validate_type ty),
           (IncidentValidator.validate_priority pr),
           (IncidentValidator.validate_description de); simpl;
    split; (try discriminate); intuition discriminate.
Qed.

(** [register_incident] has three ways out. *)
Lemma register_incident_eq (self : IncidentDispatcher) (now : Z)
    (ty pr de : string) :
  register_incident self now ty pr de
  = if negb (PyStr.truthy (PyStr.strip ty))
    then (Raised (ValueError "Tipo de incidente inválido" []), self)
    else match IncidentValidator.validate_all_incident_data ty pr de with
         | _ :: _ => (Returned None, self)
         | [] => (Returned (Some (next_id self)),
                  store_new_incident self now ty pr de)
         end.
Proof.
  unfold register_incident, register_incident_as, log_operation,
    validate_input, try_except_Exception, register_incident_body.
  destruct (negb (PyStr.truthy (PyStr.strip ty))); [reflexivity|].
  destruct (IncidentValidator.validate_all_incident_data ty pr de);
    reflexivity.
Qed.

(** Called with [incident_type] by keyword, the decorator checks nothing
    and only two ways out are left. *)
Lemma register_incident_by_keyword_eq (self : IncidentDispatcher) (now : Z)
    (ty pr de : string) :
  register_incident_as ByKeyword self now ty pr de
  = match IncidentValidator.validate_all_incident_data ty pr de with
    | _ :: _ => (Returned None, self)
    | [] => (Returned (Some (next_id self)),
             store_new_incident self now ty pr de)
    end.
Proof.
  unfold register_incident_as, log_operation, validate_input,
    try_except_Exception, register_incident_body.
  destruct (IncidentValidator.validate_all_incident_data ty pr de);
    reflexivity.
Qed.

Lemma store_new_incident_fields (self : IncidentDispatcher) (now : Z)
    (ty pr de : string) :
  let inc := new_incident self now ty pr de in
  let self' := store_new_incident self now ty pr de in
  incidents self' = dict_set Z.eqb (incidents self) (next_id self) inc
  /\ pending_queue self'
     = (if is_high inc then inc :: pending_queue self
        else pending_queue self ++ [inc])
  /\ next_id self' = next_id self + 1
  /\ history self' = history self ++ [created_entry now inc ty pr]
  /\ operators self' = operators self
  /\ escalator self' = escalator self
  /\ storage self' = storage self.
Proof.
  unfold store_new_incident, _add_to_queue, is_high. cbv zeta.
  destruct (priority (new_incident self now ty pr de) =? "high")%string;
    simpl; auto 10.
Qed.

(** The form of the call decides nothing but the way a blank type is
    refused: the state left and the id returned are those of the
    positional call. *)
Lemma call_form_changes_no_state (form : call_form)
    (self : IncidentDispatcher) (now : Z) (ty pr de : string) :
  snd (register_incident_as form self now ty pr de)
  = snd (register_incident self now ty pr de)
  /\ forall i,
       fst (register_incident_as form self now ty pr de) = Returned (Some i)
       <-> fst (register_incident self now ty pr de) = Returned (Some i).
Proof.
  destruct form; [split; [reflexivity | tauto]|].
  rewrite register_incident_by_keyword_eq, register_incident_eq.
  destruct (IncidentValidator.validate_all_incident_data ty pr de) eqn:Ev.
  - apply no_violation_iff in Ev. destruct Ev as (Ht & _).
    rewrite (valid_type_not_blank _ Ht). simpl. split; [reflexivity | tauto].
  - destruct (negb (PyStr.truthy (PyStr.strip ty))); simpl;
      (split; [reflexivity|]); intros i; split; discriminate.
Qed.

(** C3, as the code has it.  [validate_all_incident_data] reports every
    violated constraint.  The decorator checks the type only when it is
    passed by position: a positional call whose type is blank raises a
    [ValueError] with the decorator's own single message.  Any other
    invalid registration, a blank type passed by keyword included, raises
    nothing and returns [None], the list of violations going no further
    than the handler inside [register_incident].  In all these cases the
    state is unchanged.  A valid registration, in either form, returns
    [next_id], stores under that id a pending incident without assignee
    that carries the type, the priority, the stripped description and the
    clock reading, queues it, moves the counter by one and appends one
    [created] entry. *)
Theorem register_incident_spec (form : call_form)
    (self : IncidentDispatcher) (now : Z) (ty pr de : string) :
  let errors := IncidentValidator.validate_all_incident_data ty pr de in
  let r := register_incident_as form self now ty pr de in
  let inc := new_incident self now ty pr de in
  ((In InvalidType errors <-> IncidentValidator.validate_type ty = false)
   /\ (In InvalidPriority errors
       <-> IncidentValidator.validate_priority pr = false)
   /\ (In InvalidDescription errors
       <-> IncidentValidator.validate_description de = false))
  /\ (form = Positional -> PyStr.truthy (PyStr.strip ty) = false ->
      r = (Raised (ValueError "Tipo de incidente inválido" []), self))
  /\ (form = ByKeyword \/ PyStr.truthy (PyStr.strip ty) = true ->
      errors <> [] ->
      r = (Returned None, self))
  /\ (errors = [] ->
      fst r = Returned (Some (next_id self))
      /\ id inc = next_id self /\ status inc = "pending"
      /\ type inc = ty /\ priority inc = pr
      /\ description inc = PyStr.strip de
      /\ created_at inc = now /\ assigned_to inc = None
      /\ stored (snd r) (next_id self) = Some inc
      /\ pending_queue (snd r)
         = (if is_high inc then inc :: pending_queue self
            else pending_queue self ++ [inc])
      /\ next_id (snd r) = next_id self + 1
      /\ history (snd r) = history self ++ [created_entry now inc ty pr]
      /\ action (created_entry now inc ty pr) = "created").
Proof.
  cbv zeta. split; [|split; [|split]].
  - unfold IncidentValidator.validate_all_incident_data.
    destruct (IncidentValidator.validate_type ty),
             (IncidentValidator.validate_priority pr),
             (IncidentValidator.validate_description de); simpl;
      repeat split; intros; try discriminate; try tauto;
      repeat match goal with
             | H : _ \/ _ |- _ => destruct H
             | H : False |- _ => destruct H
             end; try discriminate.
  - intros -> Hb. fold (register_incident self now ty pr de).
    rewrite register_incident_eq, Hb. reflexivity.
  - intros Hform Hne. destruct form.
    + destruct Hform as [Hf|Hb]; [discriminate|].
      fold (register_incident self now ty pr de).
      rewrite register_incident_eq, Hb. simpl.
      destruct (IncidentValidator.validate_all_incident_data ty pr de);
        [contradiction | reflexivity].
    + rewrite register_incident_by_keyword_eq.
      destruct (IncidentValidator.validate_all_incident_data ty pr de);
        [contradiction | reflexivity].
  - intros He.
    assert (Hr : register_incident_as form self now ty pr de
                 = (Returned (Some (next_id self)),
                    store_new_incident self now ty pr de)).
    { destruct form.
      - fold (register_incident self now ty pr de).
        pose proof He as Hv. apply no_violation_iff in Hv.
        destruct Hv as (Ht & _).
        now rewrite register_incident_eq, (valid_type_not_blank _ Ht), He.
      - now rewrite register_incident_by_keyword_eq, He. }
    rewrite Hr. cbn [fst snd].
    destruct (store_new_incident_fields self now ty pr de)
      as (Hi & Hq & Hn & Hh & _).
    repeat split; try assumption.
    unfold stored. rewrite Hi. apply dict_get_set_same. exact Z_eqb_spec.
Qed.

(** The description that is stored is the stripped one, whatever blanks
    the caller left around it; a blank type raises by position and returns
    [None] by keyword. *)
Example register_incident_examples :
  stored (snd (register_incident fresh_dispatcher 0 "security" "high"
                 "  server breach  ")) 1
  = Some (mkIncident 1 "security" "high" "server breach" 0 None "pending")
  /\ register_incident_as Positional fresh_dispatcher 0 " " "high"
       "server breach"
     = (Raised (ValueError "Tipo de incidente inválido" []),
        fresh_dispatcher)
  /\ register_incident_as ByKeyword fresh_dispatcher 0 " " "high"
       "server breach"
     = (Returned None, fresh_dispatcher).
Proof. vm_compute. repeat split. Qed.

(** C3, counterexample: a registration of type ["foo"] violates a
    constraint and yet raises nothing; it returns [None]. *)
Lemma register_invalid_type_returns_None :
  ~ registration_raises_all_violations.
Proof.
  intros H.
  destruct (H fresh_dispatcher 0 "foo" "high" "server breach") as [msg Hm].
  - discriminate.
  - rewrite register_incident_eq in Hm. simpl in Hm. discriminate.
Qed.

(** ** Steps keep the invariant *)

Lemma register_incident_Inv (self : IncidentDispatcher) (now : Z)
    (ty pr de : string) :
  Inv self -> Inv (snd (register_incident self now ty pr de)).
Proof.
  intros HI. rewrite register_incident_eq.
  destruct (negb _); [exact HI|].
  destruct (IncidentValidator.validate_all_incident_data ty pr de);
    [|exact HI].
  cbn [snd].
  destruct (store_new_incident_fields self now ty pr de)
    as (Hi & _ & Hn & _ & _ & He & _).
  eapply Inv_store with (inc := new_incident self now ty pr de);
    [exact HI | exact Hi | rewrite Hn; simpl; lia | lia | exact He].
Qed.

Lemma assign_incident_Inv (self : IncidentDispatcher) (now iid : Z)
    (opn : string) :
  Inv self -> Inv (snd (assign_incident self now iid opn)).
Proof.
  intros HI. unfold assign_incident.
  destruct (dict_get Z.eqb (incidents self) iid) as [inc|] eqn:G; [|exact HI].
  destruct (negb _); [exact HI|].
  destruct (dict_get String.eqb (operators self) opn) as [o|]; [|exact HI].
  destruct (negb (available o)); [exact HI|].
  destruct (negb (can_handle o (type inc))); [exact HI|].
  pose proof (stored_id self iid inc HI G) as Hid.
  eapply Inv_store with (inc := with_assignment inc opn); eauto; simpl;
    rewrite ?Hid; try reflexivity; try lia.
  apply (inv_fresh _ HI). eapply stored_key; eauto.
Qed.

Lemma resolve_incident_Inv (self : IncidentDispatcher) (now iid : Z) :
  Inv self -> Inv (snd (resolve_incident self now iid)).
Proof.
  intros HI. unfold resolve_incident.
  destruct (dict_get Z.eqb (incidents self) iid) as [inc|] eqn:G; [|exact HI].
  destruct (negb _); [exact HI|].
  pose proof (stored_id self iid inc HI G) as Hid.
  eapply Inv_store with (inc := with_status inc "resolved"); eauto; simpl;
    rewrite ?Hid; try reflexivity; try lia.
  apply (inv_fresh _ HI). eapply stored_key; eauto.
Qed.

Lemma escalate_step_fields (now n : Z) (self : IncidentDispatcher)
    (inc : Incident) :
  let r := escalate_step now (n, self) inc in
  fst r = n + 1
  /\ incidents (snd r)
     = dict_set Z.eqb (incidents self) (id inc) (with_status inc "escalated")
  /\ pending_queue (snd r) = queue_without (pending_queue self) (id inc)
  /\ history (snd r) = history self ++ [escalated_entry now inc]
  /\ next_id (snd r) = next_id self
  /\ escalator (snd r) = escalator self
  /\ operators (snd r) = operators self.
Proof. simpl. auto 10. Qed.

(** The loop of the sweep, over any list of hits. *)
Lemma escalate_fold (now : Z) (hits : list Incident) :
  forall (n : Z) (self : IncidentDispatcher),
    let r := fold_left (escalate_step now) hits (n, self) in
    fst r = n + Z.of_nat (List.length hits)
    /\ history (snd r) = history self ++ map (escalated_entry now) hits
    /\ (forall q, In q (pending_queue (snd r)) <->
                  In q (pending_queue self) /\ ~ In (id q) (map id hits))
    /\ (forall k, ~ In k (map id hits) -> stored (snd r) k = stored self k)
    /\ (forall h, In h hits ->
          exists h', In h' hits /\ id h' = id h
                     /\ stored (snd r) (id h)
                        = Some (with_status h' "escalated"))
    /\ next_id (snd r) = next_id self
    /\ escalator (snd r) = escalator self
    /\ operators (snd r) = operators self
    /\ (forall k, In k (dict_keys (incidents (snd r))) <->
                  In k (dict_keys (incidents self)) \/ In k (map id hits))
    /\ (NoDup (dict_keys (incidents self)) ->
        NoDup (dict_keys (incidents (snd r))))
    /\ ((forall k v, In (k, v) (incidents self) -> id v = k) ->
        forall k v, In (k, v) (incidents (snd r)) -> id v = k).
Proof.
  induction hits as [|a rest IH]; intros n self; cbv zeta.
  - simpl. rewrite app_nil_r. repeat split; auto; try tauto; try lia.
  - change (fold_left (escalate_step now) (a :: rest) (n, self))
      with (fold_left (escalate_step now) rest
              (escalate_step now (n, self) a)).
    destruct (escalate_step_fields now n self a)
      as (H1 & H2 & H3 & H4 & H5 & H6 & H7). cbv zeta in *.
    destruct (escalate_step now (n, self) a) as [n1 s1] eqn:E1.
    simpl fst in *. simpl snd in *.
    specialize (IH n1 s1). cbv zeta in IH.
    destruct IH as (I1 & I2 & I3 & I4 & I5 & I6 & I7 & I8 & I9 & I10 & I11).
    split; [|split; [|split; [|split; [|split; [|split; [|split;
      [|split; [|split; [|split]]]]]]]]].
    + rewrite I1, H1. simpl List.length. lia.
    + rewrite I2, H4. simpl. now rewrite <- app_assoc.
    + intros q. rewrite I3, H3, queue_without_In. simpl.
      intuition congruence.
    + intros k Hk. simpl in Hk. rewrite I4 by tauto.
      unfold stored. rewrite H2.
      apply dict_get_set_other; [exact Z_eqb_spec | tauto].
    + intros h Hh.
      destruct (in_dec Z.eq_dec (id h) (map id rest)) as [Hin|Hnin].
      * apply in_map_iff in Hin. destruct Hin as (h2 & Hid2 & Hin2).
        destruct (I5 h2 Hin2) as (h' & Hh' & Hid' & Hs).
        exists h'. rewrite <- Hid2. split; [now right | split; assumption].
      * destruct Hh as [<-|Hh].
        -- exists a. split; [now left | split; [reflexivity|]].
           rewrite I4 by assumption. unfold stored. rewrite H2.
           apply dict_get_set_same. exact Z_eqb_spec.
        -- exfalso. apply Hnin. now apply in_map.
    + congruence.
    + congruence.
    + congruence.
    + intros k. rewrite I9, H2, (dict_set_keys_In _ Z_eqb_spec). simpl.
      intuition.
    + intros Hnd. apply I10. rewrite H2.
      now apply dict_set_keys_NoDup; [exact Z_eqb_spec|].
    + intros Hk. apply I11. rewrite H2. intros k v Hin.
      apply (dict_set_In _ Z_eqb_spec) in Hin.
      destruct Hin as [[-> ->]|Hin]; [reflexivity | auto].
Qed.

Lemma escalation_hits_In (self : IncidentDispatcher) (now : Z)
    (h : Incident) :
  In h (escalation_hits self now) <->
  In h (dict_values (incidents self))
  /\ (status h = "pending" \/ status h = "in_progress")
  /\ should_escalate (escalator self) now h = true.
Proof.
  unfold escalation_hits, IncidentEscalator.find_escalatable_incidents,
    get_incidents_by_status.
  rewrite filter_In, in_app_iff, !filter_In, !String.eqb_eq. tauto.
Qed.

Lemma auto_escalate_Inv (self : IncidentDispatcher) (now : Z) :
  Inv self -> Inv (snd (auto_escalate_incidents self now)).
Proof.
  intros HI. unfold auto_escalate_incidents.
  destruct (escalate_fold now (escalation_hits self now) 0 self)
    as (_ & _ & _ & _ & _ & Hn & He & _ & Hk & Hnd & Hid).
  constructor.
  - apply Hnd, HI.
  - apply Hid, HI.
  - intros k Hin. rewrite Hn. apply Hk in Hin. destruct Hin as [Hin|Hin].
    + now apply (inv_fresh _ HI).
    + apply in_map_iff in Hin. destruct Hin as (h & <- & Hh).
      apply escalation_hits_In in Hh. destruct Hh as (Hv & _).
      apply (inv_fresh _ HI). eapply stored_key.
      apply value_stored; eauto.
  - rewrite He. apply HI.
Qed.

Lemma add_operator_Inv (self : IncidentDispatcher) (n : string)
    (rs : list string) :
  Inv self -> Inv (snd (add_operator self n rs)).
Proof.
  intros HI. unfold add_operator. destruct (negb _); [exact HI|].
  eapply Inv_same_table; eauto; simpl; lia.
Qed.

Lemma step_Inv (self : IncidentDispatcher) (c : call) :
  Inv self -> Inv (snd (step self c)).
Proof.
  intros HI. destruct c as [now ty pr de|now i o|now i|now|n rs]; simpl.
  - pose proof (register_incident_Inv self now ty pr de HI).
    destruct (register_incident self now ty pr de); assumption.
  - pose proof (assign_incident_Inv self now i o HI).
    destruct (assign_incident self now i o); assumption.
  - pose proof (resolve_incident_Inv self now i HI).
    destruct (resolve_incident self now i); assumption.
  - pose proof (auto_escalate_Inv self now HI).
    destruct (auto_escalate_incidents self now); assumption.
  - pose proof (add_operator_Inv self n rs HI).
    destruct (add_operator self n rs); assumption.
Qed.

Lemma run_cons (self : IncidentDispatcher) (c : call) (rest : list call) :
  run self (c :: rest)
  = (fst (step self c) :: fst (run (snd (step self c)) rest),
     snd (run (snd (step self c)) rest)).
Proof.
  simpl. destruct (step self c) as [r s1]. simpl.
  destruct (run s1 rest). reflexivity.
Qed.

Lemma run_Inv (calls : list call) :
  forall self, Inv self -> Inv (snd (run self calls)).
Proof.
  induction calls as [|c rest IH]; intros self HI.
  - exact HI.
  - rewrite run_cons. simpl. apply IH. now apply step_Inv.
Qed.

(** ** Escalation *)

Lemma default_strategy_high (now : Z) (inc : Incident) :
  priority inc = "high" ->
  status inc = "pending" \/ status inc = "in_progress" ->
  timedelta_minutes 15 < now - created_at inc ->
  should_escalate IncidentEscalator.default_strategy now inc = true.
Proof.
  intros Hp Hs Ht. apply status_is_open_iff in Hs. simpl.
  rewrite Hs, Hp. simpl.
  apply Z.ltb_lt in Ht. rewrite Ht. apply orb_true_r.
Qed.

Lemma default_strategy_recent (now : Z) (inc : Incident) :
  now - created_at inc <= timedelta_minutes 15 ->
  should_escalate IncidentEscalator.default_strategy now inc = false.
Proof.
  intros Ht. simpl.
  assert (H30 : (timedelta_minutes 30 <? now - created_at inc) = false).
  { apply Z.ltb_ge. unfold timedelta_minutes in *. lia. }
  assert (H15 : (timedelta_minutes 15 <? now - created_at inc) = false).
  { apply Z.ltb_ge. assumption. }
  rewrite H30, H15.
  destruct (status_is_open inc), (priority inc =? "high")%string; reflexivity.
Qed.

Lemma values_ids (self : IncidentDispatcher) :
  Inv self -> map id (dict_values (incidents self)) = dict_keys (incidents self).
Proof.
  intros HI. pose proof (inv_key_id _ HI) as Hk.
  unfold dict_values, dict_keys. rewrite map_map.
  apply map_ext_in. intros [k v] Hin. simpl. auto.
Qed.

(** Filtering a list of incidents with distinct ids keeps the ids
    distinct. *)
Lemma filter_ids_NoDup (keep : Incident -> bool) (incs : list Incident) :
  NoDup (map id incs) -> NoDup (map id (filter keep incs)).
Proof.
  intros Hnd. induction incs as [|x rest IH]; simpl; [constructor|].
  inversion Hnd as [|? ? Hnin Hrest]; subst.
  destruct (keep x); simpl; [|now apply IH].
  constructor; [|now apply IH].
  intros Hin. apply Hnin. apply in_map_iff in Hin.
  destruct Hin as (y & Hy & Hin). apply filter_In in Hin.
  rewrite <- Hy. apply in_map. tauto.
Qed.

Lemma escalation_hits_NoDup (self : IncidentDispatcher) (now : Z) :
  Inv self -> NoDup (map id (escalation_hits self now)).
Proof.
  intros HI. unfold escalation_hits,
    IncidentEscalator.find_escalatable_incidents, get_incidents_by_status.
  apply filter_ids_NoDup. rewrite map_app.
  pose proof (inv_nodup _ HI) as Hnd. rewrite <- (values_ids _ HI) in Hnd.
  apply NoDup_app.
  - now apply filter_ids_NoDup.
  - now apply filter_ids_NoDup.
  - intros x Hp Hq. apply in_map_iff in Hp, Hq.
    destruct Hp as (a & <- & Ha). destruct Hq as (b & Hab & Hb).
    apply filter_In in Ha, Hb. destruct Ha as [Ha Hsa], Hb as [Hb Hsb].
    apply String.eqb_eq in Hsa, Hsb.
    pose proof (value_stored _ _ HI Ha) as Sa.
    pose proof (value_stored _ _ HI Hb) as Sb.
    rewrite Hab, Sa in Sb. injection Sb as <-. congruence.
Qed.

(** C4.  Take an incident stored in the table whose status is [pending] or
    [in_progress].  If its priority is [high] and it was created more than
    15 minutes before [now], the sweep escalates it: it is stored with
    status [escalated], no entry of the queue carries its id, and the
    history holds its [escalated] entry.  If it was created at most 15
    minutes before [now] (10 minutes, say) it is left as it was, in the
    table and in the queue.  The sweep returns the number of hits; the
    hits are distinct incidents, each of them is stored as escalated
    afterwards and has one history entry, and no other incident
    changes. *)
Theorem auto_escalate_spec
    (self : IncidentDispatcher) (now k : Z) (inc : Incident) :
  Inv self ->
  stored self k = Some inc ->
  status inc = "pending" \/ status inc = "in_progress" ->
  let n := fst (auto_escalate_incidents self now) in
  let self' := snd (auto_escalate_incidents self now) in
  let hits := escalation_hits self now in
  (priority inc = "high" -> timedelta_minutes 15 < now - created_at inc ->
   stored self' k = Some (with_status inc "escalated")
   /\ status (with_status inc "escalated") = "escalated"
   /\ not_queued self' k
   /\ In (escalated_entry now inc) (history self')
   /\ action (escalated_entry now inc) = "escalated")
  /\ (now - created_at inc <= timedelta_minutes 15 ->
      stored self' k = Some inc
      /\ (In inc (pending_queue self) -> In inc (pending_queue self')))
  /\ n = Z.of_nat (List.length hits)
  /\ NoDup (map id hits)
  /\ history self' = history self ++ map (escalated_entry now) hits
  /\ (forall h, In h hits ->
        stored self' (id h) = Some (with_status h "escalated")
        /\ not_queued self' (id h))
  /\ (forall k' i', stored self k' = Some i' -> ~ In i' hits ->
        stored self' k' = Some i').
Proof.
  intros HI Hst Hopen. cbv zeta. unfold auto_escalate_incidents.
  destruct (escalate_fold now (escalation_hits self now) 0 self)
    as (Hn & Hh & Hq & Hother & Hhit & _).
  set (r := fold_left (escalate_step now) (escalation_hits self now) (0, self))
    in *.
  pose proof (escalation_hits_NoDup self now HI) as Hnd.
  assert (Hinj : forall a b,
             In a (escalation_hits self now) ->
             In b (escalation_hits self now) -> id a = id b -> a = b).
  { intros a b Ha Hb Hab. apply escalation_hits_In in Ha, Hb.
    destruct Ha as (Ha & _), Hb as (Hb & _).
    pose proof (value_stored _ _ HI Ha) as Sa.
    pose proof (value_stored _ _ HI Hb) as Sb.
    rewrite Hab, Sb in Sa. now injection Sa. }
  assert (Hhits : forall h, In h (escalation_hits self now) ->
             stored (snd r) (id h) = Some (with_status h "escalated")
             /\ not_queued (snd r) (id h)).
  { intros h Hin. split.
    - destruct (Hhit h Hin) as (h' & Hin' & Hid & Hs).
      now rewrite (Hinj h' h Hin' Hin Hid) in Hs.
    - intros q Hq' Heq. apply Hq in Hq'. destruct Hq' as [_ Hq'].
      apply Hq'. rewrite Heq. now apply in_map. }
  assert (Hkeep : forall k' i', stored self k' = Some i' ->
             ~ In i' (escalation_hits self now) ->
             stored (snd r) k' = Some i').
  { intros k' i' Hs Hnin. rewrite Hother; [assumption|].
    intros Hin. apply in_map_iff in Hin. destruct Hin as (h & Hid & Hin).
    apply Hnin. pose proof Hin as Hin2.
    apply escalation_hits_In in Hin2. destruct Hin2 as (Hv & _).
    pose proof (value_stored _ _ HI Hv) as Sh.
    rewrite Hid, Hs in Sh. injection Sh as ->. assumption. }
  pose proof (stored_id _ _ _ HI Hst) as Hid.
  split; [|split; [|split; [|split; [|split; [|split]]]]]; auto.
  - intros Hp Ht.
    assert (Hin : In inc (escalation_hits self now)).
    { apply escalation_hits_In. split; [eapply stored_value; eauto|].
      split; [assumption|]. rewrite (inv_escalator _ HI).
      now apply default_strategy_high. }
    destruct (Hhits inc Hin) as [Hs Hnq]. rewrite Hid in Hs, Hnq.
    repeat split; try assumption.
    rewrite Hh. apply in_or_app. right. now apply in_map.
  - intros Ht.
    assert (Hnin : ~ In inc (escalation_hits self now)).
    { intros Hin. apply escalation_hits_In in Hin.
      destruct Hin as (_ & _ & Hse). rewrite (inv_escalator _ HI) in Hse.
      rewrite (default_strategy_recent now inc Ht) in Hse. discriminate. }
    split; [now apply Hkeep|].
    intros Hin. apply Hq. split; [assumption|].
    intros Hin'. apply in_map_iff in Hin'. destruct Hin' as (h & Hidh & Hh').
    apply Hnin. pose proof Hh' as Hh2.
    apply escalation_hits_In in Hh2. destruct Hh2 as (Hv & _).
    pose proof (value_stored _ _ HI Hv) as Sh.
    rewrite Hidh, Hid, Hst in Sh. injection Sh as ->. assumption.
Qed.

(** C4, at the scenario of the specification: sixteen minutes after its
    registration the high-priority incident is escalated, ten minutes after
    it is not. *)
Lemma auto_escalate_spec_witness :
  stored (snd (auto_escalate_incidents breach_registered
                 (timedelta_minutes 16))) 1
  = Some (with_status breach_incident "escalated")
  /\ stored (snd (auto_escalate_incidents breach_registered
                    (timedelta_minutes 10))) 1
     = Some breach_incident.
Proof.
  assert (HI : Inv breach_registered)
    by apply register_incident_Inv, new_dispatcher_Inv.
  assert (Hs : stored breach_registered 1 = Some breach_incident)
    by (vm_compute; reflexivity).
  assert (Ho : status breach_incident = "pending"
               \/ status breach_incident = "in_progress")
    by (left; reflexivity).
  assert (Hp : priority breach_incident = "high") by reflexivity.
  assert (H16 : timedelta_minutes 15
                < timedelta_minutes 16 - created_at breach_incident)
    by (vm_compute; reflexivity).
  assert (H10 : timedelta_minutes 10 - created_at breach_incident
                <= timedelta_minutes 15)
    by (vm_compute; discriminate).
  split.
  - exact (proj1 (proj1 (auto_escalate_spec breach_registered
                          (timedelta_minutes 16) 1 breach_incident HI Hs Ho)
                        Hp H16)).
  - exact (proj1 (proj1 (proj2 (auto_escalate_spec breach_registered
                                 (timedelta_minutes 10) 1 breach_incident
                                 HI Hs Ho)) H10)).
Defined.

Example escalation_scenario_counts :
  fst (auto_escalate_incidents breach_registered (timedelta_minutes 16)) = 1
  /\ get_pending_incidents
       (snd (auto_escalate_incidents breach_registered
               (timedelta_minutes 16))) = []
  /\ fst (auto_escalate_incidents breach_registered (timedelta_minutes 10))
     = 0
  /\ get_pending_incidents
       (snd (auto_escalate_incidents breach_registered
               (timedelta_minutes 10))) = [breach_incident].
Proof. vm_compute. repeat split. Qed.

(** ** Identifiers *)

Lemma assign_incident_next_id (self : IncidentDispatcher) (now iid : Z)
    (opn : string) :
  next_id (snd (assign_incident self now iid opn)) = next_id self.
Proof.
  unfold assign_incident.
  destruct (dict_get Z.eqb (incidents self) iid); [|reflexivity].
  destruct (negb _); [reflexivity|].
  destruct (dict_get String.eqb (operators self) opn) as [o|]; [|reflexivity].
  destruct (negb (available o)); [reflexivity|].
  destruct (negb (can_handle o _)); reflexivity.
Qed.

Lemma resolve_incident_next_id (self : IncidentDispatcher) (now iid : Z) :
  next_id (snd (resolve_incident self now iid)) = next_id self.
Proof.
  unfold resolve_incident.
  destruct (dict_get Z.eqb (incidents self) iid); [|reflexivity].
  destruct (negb _); reflexivity.
Qed.

Lemma auto_escalate_next_id (self : IncidentDispatcher) (now : Z) :
  next_id (snd (auto_escalate_incidents self now)) = next_id self.
Proof.
  unfold auto_escalate_incidents.
  now destruct (escalate_fold now (escalation_hits self now) 0 self)
    as (_ & _ & _ & _ & _ & Hn & _).
Qed.

Lemma add_operator_next_id (self : IncidentDispatcher) (n : string)
    (rs : list string) :
  next_id (snd (add_operator self n rs)) = next_id self.
Proof. unfold add_operator. destruct (negb _); reflexivity. Qed.

(** A step returns either no id and leaves the counter, or the value of
    the counter and moves it by one. *)
Lemma step_registered (self : IncidentDispatcher) (c : call) :
  (registered_ids [fst (step self c)] = []
   /\ next_id (snd (step self c)) = next_id self)
  \/ (registered_ids [fst (step self c)] = [next_id self]
      /\ next_id (snd (step self c)) = next_id self + 1).
Proof.
  destruct c as [now ty pr de|now i o|now i|now|n rs]; simpl.
  - rewrite register_incident_eq.
    destruct (negb _); [left; split; reflexivity|].
    destruct (IncidentValidator.validate_all_incident_data ty pr de).
    + right. simpl. split; [reflexivity|].
      now destruct (store_new_incident_fields self now ty pr de)
        as (_ & _ & Hn & _).
    + left. split; reflexivity.
  - pose proof (assign_incident_next_id self now i o).
    destruct (assign_incident self now i o). left. split; auto.
  - pose proof (resolve_incident_next_id self now i).
    destruct (resolve_incident self now i). left. split; auto.
  - pose proof (auto_escalate_next_id self now).
    destruct (auto_escalate_incidents self now). left. split; auto.
  - pose proof (add_operator_next_id self n rs).
    destruct (add_operator self n rs). left. split; auto.
Qed.

Lemma registered_ids_cons (r : reply) (rs : list reply) :
  registered_ids (r :: rs) = registered_ids [r] ++ registered_ids rs.
Proof. unfold registered_ids. simpl. now rewrite app_nil_r. Qed.

Lemma run_registered_ids (calls : list call) :
  forall self,
    let ids := registered_ids (fst (run self calls)) in
    ids = consecutive (next_id self) (List.length ids)
    /\ next_id (snd (run self calls))
       = next_id self + Z.of_nat (List.length ids).
Proof.
  induction calls as [|c rest IH]; intros self; cbv zeta.
  - simpl. split; [reflexivity | lia].
  - rewrite run_cons. cbn [fst snd].
    rewrite registered_ids_cons.
    destruct (IH (snd (step self c))) as [I1 I2]. cbv zeta in I1, I2.
    destruct (step_registered self c) as [[Hr Hn]|[Hr Hn]];
      rewrite Hr; rewrite Hn in I1, I2; simpl.
    + split; assumption.
    + split; [f_equal; assumption | rewrite I2; lia].
Qed.

Lemma consecutive_lower (n : nat) :
  forall start i, In i (consecutive start n) -> start <= i.
Proof.
  induction n as [|n IH]; simpl; intros start i; [tauto|].
  intros [<-|H]; [lia|]. apply IH in H. lia.
Qed.

Lemma consecutive_sorted (n : nat) :
  forall start, StronglySorted Z.lt (consecutive start n).
Proof.
  induction n as [|n IH]; simpl; intros start; constructor; [apply IH|].
  apply Forall_forall. intros i Hi. apply consecutive_lower in Hi. lia.
Qed.

Lemma consecutive_NoDup (n : nat) :
  forall start, NoDup (consecutive start n).
Proof.
  induction n as [|n IH]; simpl; intros start; constructor; [|apply IH].
  intros Hi. apply consecutive_lower in Hi. lia.
Qed.

Lemma new_dispatcher_empty_next_id (st : StorageManager) :
  Storage.load_incidents st = [] -> next_id (new_dispatcher st) = 1.
Proof.
  intros He. unfold new_dispatcher.
  set (s0 := {| storage := st; incidents := [] |}).
  destruct (initialize_fields s0) as (_ & Hn & _). rewrite Hn.
  unfold _load_persisted_data. simpl storage. rewrite He. reflexivity.
Qed.

(** C7.  The ids returned by the successful registrations of a run, on a
    dispatcher built on any storage and with any other calls in between,
    are consecutive from the counter the dispatcher starts with: strictly
    increasing in call order, without repetition, never the id of a
    persisted incident, and [1], [2], ... when nothing was persisted. *)
Theorem registered_ids_spec (st : StorageManager) (calls : list call) :
  let d0 := new_dispatcher st in
  let ids := registered_ids (fst (run d0 calls)) in
  ids = consecutive (next_id d0) (List.length ids)
  /\ StronglySorted Z.lt ids
  /\ NoDup ids
  /\ (forall i, In i ids -> ~ In i (dict_keys (incidents d0)))
  /\ (Storage.load_incidents st = [] ->
      ids = consecutive 1 (List.length ids)).
Proof.
  cbv zeta.
  destruct (run_registered_ids calls (new_dispatcher st)) as [Hc _].
  cbv zeta in Hc.
  set (ids := registered_ids (fst (run (new_dispatcher st) calls))) in *.
  split; [assumption|]. split; [|split; [|split]].
  - rewrite Hc. apply consecutive_sorted.
  - rewrite Hc. apply consecutive_NoDup.
  - intros i Hi Hk. rewrite Hc in Hi. apply consecutive_lower in Hi.
    pose proof (inv_fresh _ (new_dispatcher_Inv st) _ Hk). lia.
  - intros He. rewrite <- (new_dispatcher_empty_next_id st He). exact Hc.
Qed.

Example registered_ids_example :
  registered_ids
    (fst (run fresh_dispatcher
            [RegisterIncident 0 "security" "high" "server breach";
             RegisterIncident 1 "foo" "high" "server breach";
             AutoEscalateIncidents 2;
             RegisterIncident 3 "application" "low" "slow page"]))
  = [1; 2].
Proof. vm_compute. reflexivity. Qed.

(** ** The pending queue *)

Lemma step_register (self : IncidentDispatcher) (now : Z) (ty pr de : string) :
  step self (RegisterIncident now ty pr de)
  = (Registered (fst (register_incident self now ty pr de)),
     snd (register_incident self now ty pr de)).
Proof. simpl. now destruct (register_incident self now ty pr de). Qed.

(** A run of registrations appends the incidents it creates to the table,
    in call order, puts the high-priority ones in front of the queue, the
    latest first, and the others behind it, the earliest first. *)
Lemma register_run (regs : list (Z * string * string * string)) :
  forall self,
    Inv self ->
    let r := run self (register_calls regs) in
    exists news,
      incidents (snd r) = incidents self ++ map (fun i => (id i, i)) news
      /\ map id news = registered_ids (fst r)
      /\ pending_queue (snd r)
         = rev (filter is_high news) ++ pending_queue self
           ++ filter (fun i => negb (is_high i)) news.
Proof.
  induction regs as [|[[[now ty] pr] de] rest IH]; intros self HI; cbv zeta.
  - exists []. simpl. now rewrite !app_nil_r.
  - change (register_calls ((now, ty, pr, de) :: rest))
      with (RegisterIncident now ty pr de :: register_calls rest).
    rewrite run_cons, step_register. cbn [fst snd].
    rewrite registered_ids_cons.
    pose proof (register_incident_Inv self now ty pr de HI) as HI1.
    destruct (IH _ HI1) as (news & Hi & Hids & Hq). clear IH.
    rewrite register_incident_eq in *.
    destruct (negb (PyStr.truthy (PyStr.strip ty)));
      [exists news; cbn [fst snd] in *; auto|].
    destruct (IncidentValidator.validate_all_incident_data ty pr de);
      [|exists news; cbn [fst snd] in *; auto].
    cbn [fst snd] in *.
    destruct (store_new_incident_fields self now ty pr de)
      as (Si & Sq & _). cbv zeta in Si, Sq.
    set (inc := new_incident self now ty pr de) in *.
    exists (inc :: news). split; [|split].
    + rewrite Hi, Si, dict_set_absent.
      * rewrite <- app_assoc. reflexivity.
      * exact Z_eqb_spec.
      * intros Hin. pose proof (inv_fresh _ HI _ Hin). lia.
    + simpl. now rewrite Hids.
    + rewrite Hq, Sq. simpl. destruct (is_high inc); simpl.
      * now rewrite <- !app_assoc.
      * now rewrite <- !app_assoc.
Qed.

(** C5, as the code has it.  After any list of registrations on a fresh
    dispatcher the table lists the registered incidents in call order, and
    the queue is: the high-priority incidents in reverse call order (the
    one registered last comes first), then all the others in call order. *)
Theorem pending_queue_order (regs : list (Z * string * string * string)) :
  let r := run fresh_dispatcher (register_calls regs) in
  let created := dict_values (incidents (snd r)) in
  map id created = registered_ids (fst r)
  /\ get_pending_incidents (snd r)
     = rev (filter is_high created)
       ++ filter (fun i => negb (is_high i)) created.
Proof.
  cbv zeta.
  destruct (register_run regs fresh_dispatcher
              (new_dispatcher_Inv empty_storage)) as (news & Hi & Hids & Hq).
  assert (Hv : dict_values
                 (incidents (snd (run fresh_dispatcher (register_calls regs))))
               = news).
  { rewrite Hi. unfold dict_values. change (incidents fresh_dispatcher)
      with (@nil (Z * Incident)). simpl. rewrite map_map. simpl.
    apply map_id. }
  rewrite Hv. split; [assumption|].
  unfold get_pending_incidents. rewrite Hq.
  change (pending_queue fresh_dispatcher) with (@nil Incident).
  reflexivity.
Qed.

(** C5, counterexample: two high-priority incidents registered one after
    the other stand in the queue with the second in front of the first. *)
Lemma later_high_priority_goes_first : ~ queue_in_registration_order.
Proof.
  intros H.
  pose (regs := [(0, "security", "high", "first breach");
                 (1, "security", "high", "second breach")]).
  pose (a := mkIncident 1 "security" "high" "first breach" 0 None "pending").
  pose (b := mkIncident 2 "security" "high" "second breach" 1 None "pending").
  specialize (H regs a b 1%nat 0%nat). cbv zeta in H.
  assert (Ha : nth_error
                 (get_pending_incidents
                    (snd (run fresh_dispatcher (register_calls regs)))) 1
               = Some a) by (vm_compute; reflexivity).
  assert (Hb : nth_error
                 (get_pending_incidents
                    (snd (run fresh_dispatcher (register_calls regs)))) 0
               = Some b) by (vm_compute; reflexivity).
  assert (Hab : (is_high a = true /\ is_high b = false)
                \/ (is_high a = is_high b /\ id a < id b)).
  { right. split; [reflexivity | vm_compute; reflexivity]. }
  pose proof (H Ha Hb Hab) as Hlt. lia.
Qed.

(** ** Assignees *)

Lemma table_ok_store (self self' : IncidentDispatcher) (k : Z)
    (inc : Incident) :
  table_ok self -> assignee_implies_taken inc ->
  incidents self' = dict_set Z.eqb (incidents self) k inc ->
  table_ok self'.
Proof.
  intros Hok Hinc Hi k' v Hin. rewrite Hi in Hin.
  apply (dict_set_In _ Z_eqb_spec) in Hin.
  destruct Hin as [[_ ->]|Hin]; [assumption | eauto].
Qed.

Lemma taken_in_progress (inc : Incident) (opn : string) :
  assignee_implies_taken (with_assignment inc opn).
Proof. intros _. now left. Qed.

Lemma taken_resolved (inc : Incident) :
  assignee_implies_taken (with_status inc "resolved").
Proof. intros _. right. now left. Qed.

Lemma taken_escalated (inc : Incident) :
  assignee_implies_taken (with_status inc "escalated").
Proof. intros _. right. now right. Qed.

Lemma escalate_fold_table_ok (now : Z) (hits : list Incident) :
  forall n self,
    table_ok self ->
    table_ok (snd (fold_left (escalate_step now) hits (n, self))).
Proof.
  induction hits as [|a rest IH]; intros n self Hok; [exact Hok|].
  change (fold_left (escalate_step now) (a :: rest) (n, self))
    with (fold_left (escalate_step now) rest (escalate_step now (n, self) a)).
  destruct (escalate_step_fields now n self a) as (_ & H2 & _).
  cbv zeta in H2.
  destruct (escalate_step now (n, self) a) as [n1 s1]. apply IH.
  eapply table_ok_store; [exact Hok | apply taken_escalated | exact H2].
Qed.

Lemma step_table_ok (self : IncidentDispatcher) (c : call) :
  table_ok self -> table_ok (snd (step self c)).
Proof.
  intros Hok. destruct c as [now ty pr de|now i o|now i|now|n rs].
  - rewrite step_register. cbn [snd]. rewrite register_incident_eq.
    destruct (negb _); [exact Hok|].
    destruct (IncidentValidator.validate_all_incident_data ty pr de);
      [|exact Hok].
    cbn [snd].
    destruct (store_new_incident_fields self now ty pr de) as (Hi & _).
    eapply table_ok_store; [exact Hok | | exact Hi].
    intros Hne. now contradiction Hne.
  - simpl. unfold assign_incident.
    destruct (dict_get Z.eqb (incidents self) i) as [inc|]; [|exact Hok].
    destruct (negb _); [exact Hok|].
    destruct (dict_get String.eqb (operators self) o) as [op|]; [|exact Hok].
    destruct (negb (available op)); [exact Hok|].
    destruct (negb (can_handle op _)); [exact Hok|].
    eapply table_ok_store;
      [exact Hok | apply (taken_in_progress inc o) | reflexivity].
  - simpl. unfold resolve_incident.
    destruct (dict_get Z.eqb (incidents self) i) as [inc|]; [|exact Hok].
    destruct (negb _); [exact Hok|].
    eapply table_ok_store;
      [exact Hok | apply (taken_resolved inc) | reflexivity].
  - simpl. pose proof (escalate_fold_table_ok now
                         (escalation_hits self now) 0 self Hok) as H.
    fold (auto_escalate_incidents self now) in H.
    now destruct (auto_escalate_incidents self now).
  - simpl. unfold add_operator. destruct (negb _); exact Hok.
Qed.

Lemma run_table_ok (calls : list call) :
  forall self, table_ok self -> table_ok (snd (run self calls)).
Proof.
  induction calls as [|c rest IH]; intros self Hok; [exact Hok|].
  rewrite run_cons. cbn [snd]. apply IH. now apply step_table_ok.
Qed.

Lemma load_table_ok (data : list IncidentData) :
  forall self,
    table_ok self ->
    Forall assignee_implies_taken (map from_dict data) ->
    table_ok (fold_left load_one data self).
Proof.
  induction data as [|x data IH]; intros self Hok Hall; [exact Hok|].
  simpl in *. inversion Hall as [|? ? Hx Hrest]; subst.
  apply IH; [|assumption].
  destruct (load_one_fields self x) as (Hi & _).
  eapply table_ok_store; [exact Hok | exact Hx | exact Hi].
Qed.

Lemma new_dispatcher_table_ok (st : StorageManager) :
  Forall assignee_implies_taken (map from_dict (Storage.load_incidents st)) ->
  table_ok (new_dispatcher st).
Proof.
  intros Hall. unfold new_dispatcher.
  set (s0 := {| storage := st; incidents := [] |}).
  destruct (initialize_fields s0) as (Hi & _).
  intros k inc Hin. rewrite Hi in Hin. revert k inc Hin.
  change (table_ok (_load_persisted_data s0)).
  apply load_table_ok; [intros k inc [] | exact Hall].
Qed.

(** C6, counterexample: after registration, assignment and resolution the
    stored incident has an assignee and is not in progress. *)
Lemma resolved_incident_keeps_assignee : ~ assignee_only_in_progress_always.
Proof.
  intros H.
  assert (Hs : stored (snd (run fresh_dispatcher assign_then_resolve)) 1
               = Some (mkIncident 1 "security" "high" "server breach" 0
                         (Some "eve") "resolved"))
    by (vm_compute; reflexivity).
  pose proof (H assign_then_resolve 1 _ Hs) as Hc. simpl in Hc.
  assert (Hne : Some "eve" <> None) by discriminate.
  specialize (Hc Hne). discriminate.
Qed.

(** ** Search *)

Lemma timedelta_unbound :
  load_global "timedelta" = Raised (NameError "timedelta").
Proof. reflexivity. Qed.

Lemma filter_filter {A : Type} (p q : A -> bool) (l : list A) :
  filter q (filter p l) = filter (fun x => p x && q x) l.
Proof.
  induction l as [|x l IH]; simpl; [reflexivity|].
  destruct (p x); simpl; [destruct (q x); now rewrite IH | assumption].
Qed.

(** With the date filter off, the search is the chain of the filters that
    have a criterion, and keeps exactly the incidents every one of them
    keeps. *)
Lemma search_without_date_filter (re_search : string -> string -> bool)
    (self : IncidentDispatcher) (now : Z)
    (text ty op st : string) (days_back : Z) :
  days_back <= 0 ->
  search_incidents re_search self now text ty op st days_back
  = Returned (filter (matches re_search text ty op st)
                     (dict_values (incidents self))).
Proof.
  intros Hd. unfold search_incidents, search_incidents_body.
  assert (E : (0 <? days_back) = false) by (apply Z.ltb_ge; lia).
  rewrite E. f_equal.
  unfold IncidentFilter.by_text, IncidentFilter.by_type,
    IncidentFilter.by_operator, IncidentFilter.by_status, matches.
  destruct (PyStr.truthy text), (PyStr.truthy ty), (PyStr.truthy op),
    (PyStr.truthy st); simpl; rewrite ?filter_filter;
    first [ symmetry; apply List.filter_true
          | apply filter_ext; intros x;
            rewrite ?andb_true_r, ?andb_assoc; reflexivity ].
Qed.

Lemma search_by_type_and_status (re_search : string -> string -> bool)
    (self : IncidentDispatcher) (now : Z) (ty st : string) (inc : Incident) :
  PyStr.truthy ty = true -> PyStr.truthy st = true ->
  (exists l,
     search_incidents re_search self now EmptyString ty EmptyString st 0 = Returned l
     /\ (In inc l <->
         In inc (IncidentFilter.by_type (dict_values (incidents self)) ty)
         /\ In inc (IncidentFilter.by_status
                      (dict_values (incidents self)) st))).
Proof.
  intros Ht Hs. eexists. split.
  - apply search_without_date_filter. lia.
  - unfold IncidentFilter.by_type, IncidentFilter.by_status, matches.
    rewrite !filter_In, Ht, Hs. simpl.
    rewrite andb_true_r, andb_true_iff. tauto.
Qed.

(** Whenever the date filter is on, the lookup of [timedelta] fails and the
    search returns the empty list, whatever the table holds. *)
Lemma search_with_date_filter_is_empty (re_search : string -> string -> bool)
    (self : IncidentDispatcher) (now : Z)
    (text ty op st : string) (days_back : Z) :
  0 < days_back ->
  search_incidents re_search self now text ty op st days_back = Returned [].
Proof.
  intros Hd. unfold search_incidents, search_incidents_body.
  assert (E : (0 <? days_back) = true) by (apply Z.ltb_lt; lia).
  rewrite E, timedelta_unbound. reflexivity.
Qed.

(** C8, the code at the failing input.  One pending security incident was
    registered a minute ago.  [by_type] and [by_status] both keep it, and
    so does the search without a date filter; the search with the default
    window of 30 days returns nothing. *)
Theorem search_default_window_finds_nothing
    (re_search : string -> string -> bool) :
  let all := dict_values (incidents breach_registered) in
  IncidentFilter.by_type all "security" = [breach_incident]
  /\ IncidentFilter.by_status all "pending" = [breach_incident]
  /\ search_incidents re_search breach_registered (timedelta_minutes 1)
       EmptyString "security" EmptyString "pending" 0
     = Returned [breach_incident]
  /\ search_incidents re_search breach_registered (timedelta_minutes 1)
       EmptyString "security" EmptyString "pending" 30
     = Returned [].
Proof.
  cbv zeta. split; [reflexivity|]. split; [reflexivity|].
  split; [reflexivity|]. apply search_with_date_filter_is_empty. lia.
Qed.

(** ** Sessions *)

Lemma save_data_cases (self : IncidentDispatcher) :
  let data := map to_dict (dict_values (incidents self)) in
  match write_fault (storage self) with
  | None =>
      _save_data self
      = (Returned tt,
         set_storage self
           {| incidents_file := Some data;
              write_fault := write_fault (storage self) |},
         [FileWritten data; LogInfo "Guardados incidentes"])
  | Some e =>
      _save_data self
      = if is_Exception e
        then (Returned tt, set_storage self (storage self),
              [LogError "Error guardando incidentes";
               LogError "Error guardando datos"])
        else (Raised e, set_storage self (storage self), [])
  end.
Proof.
  unfold _save_data, Storage.save_incidents. cbv zeta.
  destruct (write_fault (storage self)) as [e|]; [|reflexivity].
  destruct (is_Exception e) eqn:E; simpl; rewrite ?E; reflexivity.
Qed.

(** C9, as the code has it.  Whether the body of the session returns or
    raises, [_save_data] runs on the state the body left, before the
    closing log record, and the table is not touched.  When the file can be
    written it receives the serialised table and the session ends as the
    body did: a result is returned, an exception is raised again.  When the
    write fails with an [Exception], [save_incidents] raises it, [_save_data]
    logs it and lets it go no further, and the session again ends as the
    body did; only a failure that is not an [Exception] leaves the
    session. *)
Theorem incident_session_spec {A : Type}
    (self : IncidentDispatcher) (body : M IncidentDispatcher A) :
  let r := fst (body self) in
  let s1 := snd (body self) in
  let data := map to_dict (dict_values (incidents s1)) in
  let out := fst (fst (incident_session self body)) in
  let s2 := snd (fst (incident_session self body)) in
  let evs := snd (incident_session self body) in
  incidents s2 = incidents s1
  /\ (write_fault (storage s1) = None ->
      out = r
      /\ incidents_file (storage s2) = Some data
      /\ exists before,
           evs = before
                 ++ [FileWritten data; LogInfo "Guardados incidentes";
                     LogInfo "Sesión de incidentes finalizada"])
  /\ (forall e,
        write_fault (storage s1) = Some e -> is_Exception e = true ->
        out = r
        /\ storage s2 = storage s1
        /\ exists before,
             evs = before
                   ++ [LogError "Error guardando incidentes";
                       LogError "Error guardando datos";
                       LogInfo "Sesión de incidentes finalizada"])
  /\ (forall e,
        write_fault (storage s1) = Some e -> is_Exception e = false ->
        out = Raised e /\ storage s2 = storage s1).
Proof.
  cbv zeta. unfold incident_session.
  destruct (body self) as [r s1]. cbn [fst snd].
  pose proof (save_data_cases s1) as Hc. cbv zeta in Hc.
  destruct (write_fault (storage s1)) as [e|] eqn:Ef.
  - destruct (is_Exception e) eqn:Ee; rewrite Hc; cbn [fst snd].
    + split; [reflexivity|]. split; [discriminate|]. split.
      * intros e' [= <-] _. split; [reflexivity|]. split; [reflexivity|].
        eexists. rewrite !app_assoc. rewrite <- app_assoc. reflexivity.
      * intros e' [= <-] He. congruence.
    + split; [reflexivity|]. split; [discriminate|]. split.
      * intros e' [= <-] He. congruence.
      * intros e' [= <-] _. split; reflexivity.
  - rewrite Hc. cbn [fst snd].
    split; [reflexivity|]. split; [|split; intros; discriminate].
    intros _. split; [reflexivity|]. split; [reflexivity|].
    eexists. rewrite !app_assoc. rewrite <- app_assoc. reflexivity.
Qed.

Example session_flushes_after_error :
  incident_session fresh_dispatcher
    (fun self =>
       (@Raised unit (ValueError "boom" []),
        snd (register_incident self 0 "security" "high" "server breach")))
  = (Raised (ValueError "boom" []),
     set_storage breach_registered
       {| incidents_file := Some [to_dict breach_incident];
          write_fault := None |},
     [LogInfo "Iniciando sesión de incidentes";
      LogError "Error en sesión de incidentes";
      FileWritten [to_dict breach_incident];
      LogInfo "Guardados incidentes";
      LogInfo "Sesión de incidentes finalizada"]).
Proof. vm_compute. reflexivity. Qed.

(** C9, counterexample: on a storage that cannot be written, a session
    whose body does nothing ends normally; the [OSError] of the save is
    not raised to its caller. *)
Lemma save_failure_is_absorbed : ~ save_failure_reaches_caller.
Proof.
  intros H.
  specialize (H unit (new_dispatcher faulty_storage) pass_body
                (OSError "disk full")).
  assert (Hf : write_fault
                 (storage (snd (pass_body (new_dispatcher faulty_storage))))
               = Some (OSError "disk full")) by (vm_compute; reflexivity).
  specialize (H Hf).
  assert (Hr : fst (fst (incident_session (new_dispatcher faulty_storage)
                           pass_body)) = Returned tt)
    by (vm_compute; reflexivity).
  rewrite Hr in H. discriminate.
Qed.

(** ** Reachable states and examples *)

(** Every state reached from a new dispatcher satisfies the invariant. *)
Corollary reachable_Inv (st : StorageManager) (calls : list call) :
  Inv (snd (run (new_dispatcher st) calls)).
Proof. apply run_Inv, new_dispatcher_Inv. Qed.

(** An assignment succeeds for an operator whose roles hold the type of the
    incident; none of the default operators has an incident type among its
    roles, so "ana" is refused for a security incident. *)
Example assign_incident_examples :
  let d := snd (run fresh_dispatcher
                  [AddOperator "eve" ["security"];
                   RegisterIncident 0 "security" "high" "server breach"]) in
  fst (assign_incident d 1 1 "eve") = true
  /\ fst (assign_incident d 1 1 "ana") = false
  /\ fst (assign_incident d 1 2 "eve") = false
  /\ fst (assign_incident (snd (assign_incident d 1 1 "eve")) 2 1 "eve")
     = false.
Proof. vm_compute. repeat split. Qed.

(** An escalated incident is refused by [resolve_incident]; a pending one
    and one in progress are accepted. *)
Example resolve_incident_examples :
  let d := snd (run fresh_dispatcher
                  [AddOperator "eve" ["security"];
                   RegisterIncident 0 "security" "high" "server breach"]) in
  fst (resolve_incident d 1 1) = true
  /\ fst (resolve_incident (snd (assign_incident d 1 1 "eve")) 2 1) = true
  /\ fst (resolve_incident
            (snd (auto_escalate_incidents d (timedelta_minutes 16)))
            (timedelta_minutes 17) 1) = false
  /\ fst (resolve_incident (snd (resolve_incident d 1 1)) 2 1) = false.
Proof. vm_compute. repeat split. Qed.

(** The bounds of the description: 5 and 500 characters after stripping
    are accepted, 4 are not. *)
Example validate_description_examples :
  IncidentValidator.validate_description "  abcde  " = true
  /\ IncidentValidator.validate_description " abcd " = false.
Proof. vm_compute. split; reflexivity. Qed.

Example get_history_examples :
  let d := snd (run fresh_dispatcher
                  [RegisterIncident 0 "security" "high" "server breach";
                   RegisterIncident 1 "application" "low" "slow page";
                   ResolveIncident 2 1]) in
  map action (get_history d 2) = ["created"; "resolved"]
  /\ map action (get_history d 50) = ["created"; "created"; "resolved"]
  /\ map action (get_history d 0) = ["created"; "created"; "resolved"].
Proof. vm_compute. repeat split. Qed.

(** * Further properties of the code *)

(** ** Escalation strategies *)

(** Induction over strategies, with the hypothesis for every member of a
    composite. *)
Lemma strategy_nested_ind (P : EscalationStrategy -> Prop) :
  (forall m, P (TimeBasedEscalation m)) ->
  (forall b, P (PriorityBasedEscalation b)) ->
  (forall l, Forall P l -> P (CompositeEscalation l)) ->
  forall s, P s.
Proof.
  intros Ht Hp Hc. fix IH 1. intros [m|b|l]; [apply Ht | apply Hp |].
  apply Hc. induction l as [|s l IHl]; constructor; [apply IH | exact IHl].
Qed.

Lemma composite_any (l : list EscalationStrategy) (now : Z) (inc : Incident) :
  should_escalate (CompositeEscalation l) now inc
  = existsb (fun s => should_escalate s now inc) l.
Proof.
  induction l as [|s l IH]; [reflexivity|].
  simpl in *. now rewrite IH.
Qed.

(** X1.  No strategy, however composed, escalates an incident that is neither
    pending nor in progress. *)
Theorem strategies_spare_closed_incidents
    (s : EscalationStrategy) (now : Z) (inc : Incident) :
  should_escalate s now inc = true ->
  status inc = "pending" \/ status inc = "in_progress".
Proof.
  revert s. apply (strategy_nested_ind
    (fun s => should_escalate s now inc = true ->
              status inc = "pending" \/ status inc = "in_progress")).
  - intros m H. simpl in H. apply status_is_open_iff.
    destruct (status_is_open inc); [reflexivity | discriminate].
  - intros b H. simpl in H. apply status_is_open_iff.
    destruct (negb b || negb (priority inc =? "high")%string);
      [discriminate|].
    destruct (status_is_open inc); [reflexivity | discriminate].
  - intros l Hall H. rewrite composite_any in H.
    apply existsb_exists in H. destruct H as (s & Hin & Hs).
    rewrite Forall_forall in Hall. exact (Hall s Hin Hs).
Qed.

Lemma strategies_spare_closed_incidents_witness :
  status breach_incident = "pending"
  \/ status breach_incident = "in_progress".
Proof.
  apply (strategies_spare_closed_incidents IncidentEscalator.default_strategy
           (timedelta_minutes 16) breach_incident).
  vm_compute. reflexivity.
Defined.

Lemma later_reading_still_escalates
    (s : EscalationStrategy) (now later : Z) (inc : Incident) :
  now <= later ->
  should_escalate s now inc = true ->
  should_escalate s later inc = true.
Proof.
  intros Hle. revert s. apply (strategy_nested_ind
    (fun s => should_escalate s now inc = true ->
              should_escalate s later inc = true)).
  - intros m H. simpl in *.
    destruct (negb (status_is_open inc)); [discriminate|].
    apply Z.ltb_lt in H. apply Z.ltb_lt. lia.
  - intros b H. simpl in *.
    destruct (negb b || negb (priority inc =? "high")%string);
      [discriminate|].
    destruct (negb (status_is_open inc)); [discriminate|].
    apply Z.ltb_lt in H. apply Z.ltb_lt. lia.
  - intros l Hall H. rewrite composite_any in *.
    apply existsb_exists in H. destruct H as (s & Hin & Hs).
    apply existsb_exists. exists s. split; [assumption|].
    rewrite Forall_forall in Hall. exact (Hall s Hin Hs).
Qed.

(** X2.  Once a strategy asks for the escalation of an incident, it asks for it
    at every later reading of the clock, as long as the incident is as it
    was: elapsed time only ever adds incidents to a sweep. *)
Theorem strategies_monotone_in_time
    (s : EscalationStrategy) (now later : Z) (incs : list Incident) :
  now <= later ->
  incl (IncidentEscalator.find_escalatable_incidents s now incs)
       (IncidentEscalator.find_escalatable_incidents s later incs).
Proof.
  intros Hle inc. unfold IncidentEscalator.find_escalatable_incidents.
  rewrite !filter_In. intros [Hin Hs]. split; [assumption|].
  eapply later_reading_still_escalates; eauto.
Qed.

Lemma strategies_monotone_in_time_witness :
  incl (IncidentEscalator.find_escalatable_incidents
          IncidentEscalator.default_strategy (timedelta_minutes 16)
          [breach_incident])
       (IncidentEscalator.find_escalatable_incidents
          IncidentEscalator.default_strategy (timedelta_minutes 45)
          [breach_incident]).
Proof.
  apply (strategies_monotone_in_time IncidentEscalator.default_strategy
           (timedelta_minutes 16) (timedelta_minutes 45) [breach_incident]).
  vm_compute. discriminate.
Defined.

Lemma timedelta_in_range (now minutes : Z) :
  datetime_min <= now <= datetime_max ->
  datetime_min <= now - timedelta_minutes minutes <= datetime_max ->
  timedelta_minutes_checked minutes = Returned (timedelta_minutes minutes).
Proof.
  unfold timedelta_minutes_checked, timedelta_minutes, datetime_min,
    datetime_max. intros Hn Hc. cbv zeta.
  assert (Hm : -5300000000 <= minutes <= 5300000000) by lia.
  assert (Hlo : -999999999 <= minutes * 60 / 86400).
  { apply Z.div_le_lower_bound; lia. }
  assert (Hhi : minutes * 60 / 86400 <= 999999999).
  { apply Z.lt_succ_r. apply Z.div_lt_upper_bound; lia. }
  apply Z.leb_le in Hlo, Hhi. now rewrite Hlo, Hhi.
Qed.

(** X3.  [expired_incidents] and the time-based strategy agree as long as
    the cutoff [now - minutes] is a [datetime]: the incidents that have
    expired after [minutes] are then those a [TimeBasedEscalation] of that
    threshold would escalate.  When the cutoff leaves the range of
    [datetime], [expired_incidents] raises [OverflowError], even on an
    empty list. *)
Theorem expired_incidents_is_time_based
    (now minutes : Z) (incs : list Incident) :
  datetime_min <= now <= datetime_max ->
  (datetime_min <= now - timedelta_minutes minutes <= datetime_max ->
   IncidentFilter.expired_incidents now incs minutes
   = Returned
       (IncidentEscalator.find_escalatable_incidents
          (TimeBasedEscalation minutes) now incs))
  /\ (~ datetime_min <= now - timedelta_minutes minutes <= datetime_max ->
      IncidentFilter.expired_incidents now incs minutes
      = Raised OverflowError).
Proof.
  intros Hn. split.
  - intros Hc. unfold IncidentFilter.expired_incidents.
    rewrite (timedelta_in_range now minutes Hn Hc). unfold datetime_sub.
    cbv zeta. destruct Hc as [Hlo Hhi]. apply Z.leb_le in Hlo, Hhi.
    rewrite Hlo, Hhi. simpl. f_equal.
    unfold IncidentEscalator.find_escalatable_incidents.
    apply filter_ext. intros inc. simpl.
    destruct (status_is_open inc); simpl; [|reflexivity].
    destruct (created_at inc <? now - timedelta_minutes minutes) eqn:E1,
             (timedelta_minutes minutes <? now - created_at inc) eqn:E2;
      try reflexivity;
      rewrite ?Z.ltb_lt, ?Z.ltb_ge in E1, E2; lia.
  - intros Hc. unfold IncidentFilter.expired_incidents,
      timedelta_minutes_checked. cbv zeta.
    destruct ((-999999999 <=? minutes * 60 / 86400)
              && (minutes * 60 / 86400 <=? 999999999)); [|reflexivity].
    unfold datetime_sub. cbv zeta.
    destruct ((datetime_min <=? now - timedelta_minutes minutes)
              && (now - timedelta_minutes minutes <=? datetime_max)) eqn:E;
      [|reflexivity].
    exfalso. apply Hc. apply andb_true_iff in E.
    rewrite !Z.leb_le in E. exact E.
Qed.

Lemma expired_incidents_is_time_based_witness :
  IncidentFilter.expired_incidents (timedelta_minutes 40) [breach_incident] 30
  = Returned [breach_incident]
  /\ IncidentFilter.expired_incidents (timedelta_minutes 40) []
       1100000000
     = Raised OverflowError.
Proof.
  assert (Hn : datetime_min <= timedelta_minutes 40 <= datetime_max)
    by (split; vm_compute; discriminate).
  destruct (expired_incidents_is_time_based (timedelta_minutes 40) 30
              [breach_incident] Hn) as [Hin _].
  destruct (expired_incidents_is_time_based (timedelta_minutes 40) 1100000000
              [] Hn) as [_ Hout].
  split.
  - rewrite Hin; [reflexivity|]. split; vm_compute; discriminate.
  - apply Hout. intros [Hlo _]. vm_compute in Hlo. now apply Hlo.
Defined.

(** What the default strategy decides, in one formula. *)
Lemma default_strategy_eq (now : Z) (inc : Incident) :
  should_escalate IncidentEscalator.default_strategy now inc
  = status_is_open inc
    && ((timedelta_minutes 30 <? now - created_at inc)
        || ((priority inc =? "high")%string
            && (timedelta_minutes 15 <? now - created_at inc))).
Proof.
  simpl.
  destruct (status_is_open inc), (priority inc =? "high")%string,
    (timedelta_minutes 30 <? now - created_at inc),
    (timedelta_minutes 15 <? now - created_at inc); reflexivity.
Qed.

(** ** The sweep *)

(** What a sweep does to the table and to the queue. *)
Lemma sweep_effect (self : IncidentDispatcher) (now : Z) :
  Inv self ->
  let self' := snd (auto_escalate_incidents self now) in
  let hits := escalation_hits self now in
  (forall h, In h hits ->
     stored self' (id h) = Some (with_status h "escalated"))
  /\ (forall k i, stored self k = Some i -> ~ In i hits ->
        stored self' k = Some i)
  /\ (forall q, In q (pending_queue self') <->
                In q (pending_queue self) /\ ~ In (id q) (map id hits)).
Proof.
  intros HI. cbv zeta. unfold auto_escalate_incidents.
  destruct (escalate_fold now (escalation_hits self now) 0 self)
    as (_ & _ & Hq & Hother & Hhit & _).
  set (r := fold_left (escalate_step now) (escalation_hits self now) (0, self))
    in *.
  assert (Hsame : forall h i, In h (escalation_hits self now) ->
             stored self (id h) = Some i -> i = h).
  { intros h i Hin Hs. apply escalation_hits_In in Hin.
    destruct Hin as (Hv & _). rewrite (value_stored _ _ HI Hv) in Hs.
    now injection Hs. }
  split; [|split].
  - intros h Hin. destruct (Hhit h Hin) as (h' & Hin' & Hid & Hs).
    assert (h' = h) as ->; [|assumption].
    apply (Hsame h h' Hin). rewrite <- Hid.
    apply value_stored; [assumption|].
    apply escalation_hits_In in Hin'. tauto.
  - intros k i Hs Hnin. rewrite Hother; [assumption|].
    intros Hin. apply in_map_iff in Hin. destruct Hin as (h & Hid & Hin).
    apply Hnin. rewrite <- Hid in Hs. now rewrite (Hsame h i Hin Hs).
  - exact Hq.
Qed.

(** X4.  The sweep of a dispatcher, judged incident by incident: a stored
    incident is escalated exactly when it is pending or in progress and
    either more than 30 minutes old, or of high priority and more than 15
    minutes old; every other stored incident is left as it is. *)
Theorem sweep_criterion
    (self : IncidentDispatcher) (now k : Z) (inc : Incident) :
  Inv self ->
  stored self k = Some inc ->
  let self' := snd (auto_escalate_incidents self now) in
  let due :=
    (status inc = "pending" \/ status inc = "in_progress")
    /\ (timedelta_minutes 30 < now - created_at inc
        \/ (priority inc = "high"
            /\ timedelta_minutes 15 < now - created_at inc)) in
  (due -> stored self' k = Some (with_status inc "escalated"))
  /\ (~ due -> stored self' k = Some inc).
Proof.
  intros HI Hs. cbv zeta.
  destruct (sweep_effect self now HI) as (Hhit & Hkeep & _). cbv zeta in *.
  pose proof (stored_id _ _ _ HI Hs) as Hid.
  assert (Hin : In inc (escalation_hits self now) <->
                (status inc = "pending" \/ status inc = "in_progress")
                /\ (timedelta_minutes 30 < now - created_at inc
                    \/ (priority inc = "high"
                        /\ timedelta_minutes 15 < now - created_at inc))).
  { rewrite escalation_hits_In, (inv_escalator _ HI), default_strategy_eq.
    rewrite andb_true_iff, orb_true_iff, andb_true_iff, !Z.ltb_lt,
      String.eqb_eq, status_is_open_iff.
    pose proof (stored_value _ _ _ Hs). tauto. }
  split.
  - intros Hdue. apply Hin in Hdue. rewrite <- Hid. now apply Hhit.
  - intros Hn. apply Hkeep; [assumption|]. now rewrite Hin.
Qed.

Lemma sweep_criterion_witness :
  stored (snd (auto_escalate_incidents breach_registered
                 (timedelta_minutes 16))) 1
  = Some (with_status breach_incident "escalated").
Proof.
  assert (HI : Inv breach_registered)
    by apply register_incident_Inv, new_dispatcher_Inv.
  assert (Hs : stored breach_registered 1 = Some breach_incident)
    by (vm_compute; reflexivity).
  refine (proj1 (sweep_criterion breach_registered (timedelta_minutes 16) 1
                   breach_incident HI Hs) _).
  split; [left; reflexivity|]. right. split; [reflexivity|].
  vm_compute. reflexivity.
Defined.

Lemma no_member_nil {A : Type} (l : list A) :
  (forall x, ~ In x l) -> l = [].
Proof.
  destruct l as [|x l]; [reflexivity|]. intros H. exfalso.
  apply (H x). now left.
Qed.

(** X5.  A second sweep, at the same reading of the clock or an earlier one,
    finds nothing to escalate: it returns 0 and leaves the state as the
    first sweep left it. *)
Theorem sweep_twice (self : IncidentDispatcher) (now again : Z) :
  Inv self ->
  again <= now ->
  auto_escalate_incidents (snd (auto_escalate_incidents self now)) again
  = (0, snd (auto_escalate_incidents self now)).
Proof.
  intros HI Hle.
  pose proof (auto_escalate_Inv self now HI) as HI'.
  destruct (sweep_effect self now HI) as (Hhit & Hkeep & _). cbv zeta in *.
  assert (Hesc : escalator (snd (auto_escalate_incidents self now))
                 = escalator self).
  { unfold auto_escalate_incidents.
    now destruct (escalate_fold now (escalation_hits self now) 0 self)
      as (_ & _ & _ & _ & _ & _ & He & _). }
  assert (Hkeys : forall k,
             In k (dict_keys (incidents
                                (snd (auto_escalate_incidents self now)))) ->
             In k (dict_keys (incidents self))).
  { unfold auto_escalate_incidents.
    destruct (escalate_fold now (escalation_hits self now) 0 self)
      as (_ & _ & _ & _ & _ & _ & _ & _ & Hk & _).
    intros k Hin. apply Hk in Hin. destruct Hin as [Hin|Hin]; [assumption|].
    apply in_map_iff in Hin. destruct Hin as (h & <- & Hh).
    apply escalation_hits_In in Hh. destruct Hh as (Hv & _).
    eapply stored_key. apply value_stored; eauto. }
  set (self' := snd (auto_escalate_incidents self now)) in *.
  assert (Hnil : escalation_hits self' again = []).
  { apply no_member_nil. intros v Hv.
    apply escalation_hits_In in Hv. destruct Hv as (Hval & Hopen & Hse).
    pose proof (value_stored _ _ HI' Hval) as Hsv.
    pose proof (Hkeys _ (stored_key _ _ _ Hsv)) as Hk.
    destruct (stored self (id v)) as [i|] eqn:Hsi.
    2:{ unfold stored in Hsi. apply (dict_get_None _ Z_eqb_spec) in Hsi.
        contradiction. }
    destruct (in_dec Z.eq_dec (id i) (map id (escalation_hits self now)))
      as [Hidin|Hidn].
    - apply in_map_iff in Hidin. destruct Hidin as (h & Hid & Hh).
      assert (h = i) as ->.
      { pose proof Hh as Hh2. apply escalation_hits_In in Hh2.
        destruct Hh2 as (Hvh & _).
        pose proof (value_stored _ _ HI Hvh) as Sh.
        rewrite Hid, (stored_id _ _ _ HI Hsi), Hsi in Sh. now injection Sh. }
      pose proof (Hhit i Hh) as Hs'.
      rewrite (stored_id _ _ _ HI Hsi), Hsv in Hs'. injection Hs' as ->.
      simpl in Hopen. destruct Hopen; discriminate.
    - assert (Hni : ~ In i (escalation_hits self now)).
      { intros Hi. apply Hidn. now apply in_map. }
      pose proof (Hkeep _ _ Hsi Hni) as Hs'. rewrite Hsv in Hs'.
      injection Hs' as ->. apply Hni. apply escalation_hits_In.
      split; [eapply stored_value; eauto|]. split; [assumption|].
      rewrite Hesc in Hse.
      eapply later_reading_still_escalates; eauto. }
  unfold auto_escalate_incidents at 1. rewrite Hnil. reflexivity.
Qed.

Lemma sweep_twice_witness :
  auto_escalate_incidents
    (snd (auto_escalate_incidents breach_registered (timedelta_minutes 16)))
    (timedelta_minutes 16)
  = (0, snd (auto_escalate_incidents breach_registered
               (timedelta_minutes 16))).
Proof.
  assert (HI : Inv breach_registered)
    by apply register_incident_Inv, new_dispatcher_Inv.
  assert (Hle : timedelta_minutes 16 <= timedelta_minutes 16)
    by (vm_compute; discriminate).
  exact (sweep_twice breach_registered (timedelta_minutes 16)
           (timedelta_minutes 16) HI Hle).
Defined.

(** ** The queue and the table *)

Lemma queue_ok_replace (self self' : IncidentDispatcher) (k : Z)
    (v : Incident) :
  queue_ok self ->
  incidents self' = dict_set Z.eqb (incidents self) k v ->
  status v <> "pending" ->
  pending_queue self' = queue_without (pending_queue self) k ->
  queue_ok self'.
Proof.
  intros [Hqc Hnd] Hi Hv Hq. split.
  - intros q. rewrite Hq, queue_without_In, (Hqc q). unfold stored.
    rewrite Hi. destruct (Z.eq_dec (id q) k) as [e|n].
    + rewrite e, (dict_get_set_same _ Z_eqb_spec). split.
      * intros [_ F]. now contradiction F.
      * intros [[= ->] Hp]. contradiction.
    + rewrite (dict_get_set_other _ Z_eqb_spec) by congruence. tauto.
  - rewrite Hq. unfold queue_without. now apply NoDup_filter.
Qed.

Lemma queue_ok_insert (self self' : IncidentDispatcher) (inc : Incident) :
  queue_ok self ->
  ~ In (id inc) (dict_keys (incidents self)) ->
  incidents self' = dict_set Z.eqb (incidents self) (id inc) inc ->
  (status inc = "pending"
   /\ (pending_queue self' = inc :: pending_queue self
       \/ pending_queue self' = pending_queue self ++ [inc]))
  \/ (status inc <> "pending" /\ pending_queue self' = pending_queue self) ->
  queue_ok self'.
Proof.
  intros [Hqc Hnd] Hfresh Hi Hq.
  assert (Hnone : stored self (id inc) = None)
    by now apply (dict_get_None _ Z_eqb_spec).
  assert (Hnq : ~ In inc (pending_queue self)).
  { intros Hin. apply Hqc in Hin. destruct Hin as [Hs _]. congruence. }
  assert (Hmem : forall q, In q (pending_queue self') <->
                   In q (pending_queue self)
                   \/ (q = inc /\ status inc = "pending")).
  { intros q. destruct Hq as [[Hp [-> | ->]] | [Hp ->]].
    - simpl. intuition.
    - rewrite in_app_iff. simpl. intuition.
    - intuition. }
  split.
  - intros q. rewrite Hmem, (Hqc q). unfold stored. rewrite Hi.
    destruct (Z.eq_dec (id q) (id inc)) as [e|n].
    + rewrite e, (dict_get_set_same _ Z_eqb_spec).
      unfold stored in Hnone. split.
      * intros [[Hs _] | [-> Hp]]; [rewrite Hs in Hnone; discriminate|].
        split; [reflexivity | assumption].
      * intros [[= ->] Hp]. right. split; [reflexivity | assumption].
    + rewrite (dict_get_set_other _ Z_eqb_spec) by congruence. split.
      * intros [H | [-> _]]; [assumption | now contradiction n].
      * intros H. now left.
  - destruct Hq as [[Hp [-> | ->]] | [Hp ->]]; [| |assumption].
    + now constructor.
    + apply NoDup_app; [assumption | repeat constructor; simpl; tauto |].
      intros x Hx [<-|[]]. contradiction.
Qed.

Lemma queue_ok_ext (self self' : IncidentDispatcher) :
  incidents self' = incidents self ->
  pending_queue self' = pending_queue self ->
  queue_ok self -> queue_ok self'.
Proof.
  intros Hi Hq [Hqc Hnd]. split.
  - intros q. rewrite Hq, (Hqc q). unfold stored. now rewrite Hi.
  - now rewrite Hq.
Qed.

Lemma add_to_queue_queue (self : IncidentDispatcher) (inc : Incident) :
  pending_queue (_add_to_queue self inc)
  = if is_high inc then inc :: pending_queue self
    else pending_queue self ++ [inc].
Proof. unfold _add_to_queue, is_high. now destruct (_ =? _)%string. Qed.

Lemma load_one_queue (self : IncidentDispatcher) (x : IncidentData) :
  pending_queue (load_one self x)
  = if (status (from_dict x) =? "pending")%string
    then if is_high (from_dict x)
         then from_dict x :: pending_queue self
         else pending_queue self ++ [from_dict x]
    else pending_queue self.
Proof.
  unfold load_one. cbv zeta.
  destruct (status (from_dict x) =? "pending")%string; [|reflexivity].
  cbn [pending_queue set_next_id]. rewrite add_to_queue_queue. reflexivity.
Qed.

Lemma load_queue_ok (data : list IncidentData) :
  forall self,
    NoDup (map data_id data) ->
    (forall x, In x data -> ~ In (data_id x) (dict_keys (incidents self))) ->
    queue_ok self ->
    queue_ok (fold_left load_one data self).
Proof.
  induction data as [|x data IH]; intros self Hnd Hfresh Hok; [exact Hok|].
  simpl. inversion Hnd as [|? ? Hx Hnd']; subst.
  destruct (load_one_fields self x) as (Hi & _).
  apply IH; [assumption| |].
  - intros y Hy. rewrite Hi, (dict_set_keys_In _ Z_eqb_spec).
    intros [He|Hin].
    + apply Hx. simpl in He. rewrite <- He. now apply in_map.
    + apply (Hfresh y); [now right | assumption].
  - apply (queue_ok_insert self _ (from_dict x) Hok).
    + apply (Hfresh x). now left.
    + exact Hi.
    + rewrite load_one_queue.
      destruct (status (from_dict x) =? "pending")%string eqn:E.
      * left. apply String.eqb_eq in E. split; [assumption|].
        destruct (is_high (from_dict x)); auto.
      * right. apply String.eqb_neq in E. auto.
Qed.

Lemma new_dispatcher_queue_ok (st : StorageManager) :
  NoDup (map data_id (Storage.load_incidents st)) ->
  queue_ok (new_dispatcher st).
Proof.
  intros Hnd. unfold new_dispatcher.
  set (s0 := {| storage := st; incidents := [] |}).
  destruct (initialize_fields s0) as (Hi & _ & _ & Hq & _).
  apply (queue_ok_ext (_load_persisted_data s0)); [assumption..|].
  apply load_queue_ok; [exact Hnd | intros x _ [] |].
  split; [|constructor]. intros q. simpl. split; [tauto|].
  intros [H _]. discriminate.
Qed.

Lemma escalate_fold_queue_ok (now : Z) (hits : list Incident) :
  forall n self,
    queue_ok self ->
    queue_ok (snd (fold_left (escalate_step now) hits (n, self))).
Proof.
  induction hits as [|a rest IH]; intros n self Hok; [exact Hok|].
  change (fold_left (escalate_step now) (a :: rest) (n, self))
    with (fold_left (escalate_step now) rest (escalate_step now (n, self) a)).
  destruct (escalate_step_fields now n self a) as (_ & H2 & H3 & _).
  cbv zeta in H2, H3.
  destruct (escalate_step now (n, self) a) as [n1 s1]. apply IH.
  eapply queue_ok_replace; [exact Hok | exact H2 | discriminate | exact H3].
Qed.

Lemma step_queue_ok (self : IncidentDispatcher) (c : call) :
  Inv self -> queue_ok self -> queue_ok (snd (step self c)).
Proof.
  intros HI Hok. destruct c as [now ty pr de|now i o|now i|now|n rs].
  - rewrite step_register. cbn [snd]. rewrite register_incident_eq.
    destruct (negb _); [exact Hok|].
    destruct (IncidentValidator.validate_all_incident_data ty pr de);
      [|exact Hok].
    cbn [snd].
    destruct (store_new_incident_fields self now ty pr de)
      as (Hi & Hq & _). cbv zeta in Hi, Hq.
    apply (queue_ok_insert self _ (new_incident self now ty pr de) Hok).
    + simpl. intros Hin. pose proof (inv_fresh _ HI _ Hin). lia.
    + exact Hi.
    + left. split; [reflexivity|]. rewrite Hq.
      destruct (is_high _); auto.
  - simpl. unfold assign_incident.
    destruct (dict_get Z.eqb (incidents self) i) as [inc|]; [|exact Hok].
    destruct (negb _); [exact Hok|].
    destruct (dict_get String.eqb (operators self) o) as [op|]; [|exact Hok].
    destruct (negb (available op)); [exact Hok|].
    destruct (negb (can_handle op _)); [exact Hok|].
    eapply queue_ok_replace with (v := with_assignment inc o);
      [exact Hok | reflexivity | discriminate | reflexivity].
  - simpl. unfold resolve_incident.
    destruct (dict_get Z.eqb (incidents self) i) as [inc|]; [|exact Hok].
    destruct (negb _); [exact Hok|].
    eapply queue_ok_replace with (v := with_status inc "resolved");
      [exact Hok | reflexivity | discriminate | reflexivity].
  - simpl. pose proof (escalate_fold_queue_ok now
                         (escalation_hits self now) 0 self Hok) as H.
    fold (auto_escalate_incidents self now) in H.
    now destruct (auto_escalate_incidents self now).
  - simpl. unfold add_operator. destruct (negb _); exact Hok.
Qed.

Lemma run_queue_ok (calls : list call) :
  forall self,
    Inv self -> queue_ok self -> queue_ok (snd (run self calls)).
Proof.
  induction calls as [|c rest IH]; intros self HI Hok; [exact Hok|].
  rewrite run_cons. cbn [snd].
  apply IH; [now apply step_Inv | now apply step_queue_ok].
Qed.

(** X6.  The pending queue and the table never diverge.  On a dispatcher built
    on a storage whose records have distinct ids, and after any calls, an
    incident is in the queue if and only if it is the incident stored under
    its id and its status is [pending]; and the queue lists no incident
    twice. *)
Theorem queue_is_the_pending_incidents
    (st : StorageManager) (calls : list call) :
  NoDup (map data_id (Storage.load_incidents st)) ->
  let self := snd (run (new_dispatcher st) calls) in
  (forall q,
     In q (get_pending_incidents self) <->
     stored self (id q) = Some q /\ status q = "pending")
  /\ NoDup (get_pending_incidents self).
Proof.
  intros Hnd.
  exact (run_queue_ok calls _ (new_dispatcher_Inv st)
           (new_dispatcher_queue_ok st Hnd)).
Qed.

Lemma queue_is_the_pending_incidents_witness :
  let self := snd (run fresh_dispatcher assign_then_resolve) in
  (forall q,
     In q (get_pending_incidents self) <->
     stored self (id q) = Some q /\ status q = "pending")
  /\ NoDup (get_pending_incidents self).
Proof.
  apply (queue_is_the_pending_incidents empty_storage assign_then_resolve).
  simpl. constructor.
Defined.

(** ** What a stored incident can become *)

Lemma evolves_refl (a : Incident) : evolves a a.
Proof. repeat split; auto. Qed.

Lemma evolves_trans (a b c : Incident) :
  evolves a b -> evolves b c -> evolves a c.
Proof.
  intros ((I1 & I2 & I3 & I4 & I5) & Hp1 & Hc1)
         ((J1 & J2 & J3 & J4 & J5) & Hp2 & Hc2).
  split; [|split].
  - repeat split; congruence.
  - auto.
  - intros Hcl. pose proof (Hc1 Hcl) as ->. auto.
Qed.

Lemma step_evolves (self : IncidentDispatcher) (c : call) (k : Z)
    (inc : Incident) :
  Inv self ->
  stored self k = Some inc ->
  exists inc', stored (snd (step self c)) k = Some inc' /\ evolves inc inc'.
Proof.
  intros HI Hs. destruct c as [now ty pr de|now i o|now i|now|n rs].
  - rewrite step_register. cbn [snd]. rewrite register_incident_eq.
    destruct (negb _); [exists inc; auto using evolves_refl|].
    destruct (IncidentValidator.validate_all_incident_data ty pr de);
      [|exists inc; auto using evolves_refl].
    cbn [snd]. exists inc. split; [|apply evolves_refl].
    destruct (store_new_incident_fields self now ty pr de) as (Hi & _).
    unfold stored. rewrite Hi, (dict_get_set_other _ Z_eqb_spec);
      [exact Hs|].
    pose proof (inv_fresh _ HI _ (stored_key _ _ _ Hs)). lia.
  - simpl. unfold assign_incident.
    destruct (dict_get Z.eqb (incidents self) i) as [inc0|] eqn:G;
      [|exists inc; auto using evolves_refl].
    destruct (status inc0 =? "pending")%string eqn:Es; simpl;
      [|exists inc; auto using evolves_refl].
    destruct (dict_get String.eqb (operators self) o) as [op|];
      [|exists inc; auto using evolves_refl].
    destruct (negb (available op)); [exists inc; auto using evolves_refl|].
    destruct (negb (can_handle op _)); [exists inc; auto using evolves_refl|].
    unfold stored. simpl. destruct (Z.eq_dec i k) as [->|n].
    + unfold stored in Hs. rewrite Hs in G. injection G as <-.
      rewrite (dict_get_set_same _ Z_eqb_spec).
      exists (with_assignment inc o). split; [reflexivity|].
      apply String.eqb_eq in Es. split; [|split].
      * repeat split.
      * intros _. discriminate.
      * intros Hcl. unfold status_is_open in Hcl. rewrite Es in Hcl.
        discriminate.
    + rewrite (dict_get_set_other _ Z_eqb_spec) by assumption.
      exists inc. auto using evolves_refl.
  - simpl. unfold resolve_incident.
    destruct (dict_get Z.eqb (incidents self) i) as [inc0|] eqn:G;
      [|exists inc; auto using evolves_refl].
    destruct (status_is_open inc0) eqn:Eo; simpl;
      [|exists inc; auto using evolves_refl].
    unfold stored. simpl. destruct (Z.eq_dec i k) as [->|n].
    + unfold stored in Hs. rewrite Hs in G. injection G as <-.
      rewrite (dict_get_set_same _ Z_eqb_spec).
      exists (with_status inc "resolved"). split; [reflexivity|].
      split; [|split].
      * repeat split.
      * intros _. discriminate.
      * intros Hcl. congruence.
    + rewrite (dict_get_set_other _ Z_eqb_spec) by assumption.
      exists inc. auto using evolves_refl.
  - simpl.
    destruct (sweep_effect self now HI) as (Hhit & Hkeep & _). cbv zeta in *.
    destruct (auto_escalate_incidents self now) as [cnt s1] eqn:E.
    cbn [snd] in *.
    destruct (status_is_open inc
              && should_escalate (escalator self) now inc) eqn:Eb.
    + apply andb_true_iff in Eb. destruct Eb as [Eo Ese].
      assert (Hin : In inc (escalation_hits self now)).
      { apply escalation_hits_In. split; [eapply stored_value; eauto|].
        split; [now apply status_is_open_iff | assumption]. }
      pose proof (Hhit inc Hin) as Hs'.
      rewrite (stored_id _ _ _ HI Hs) in Hs'.
      exists (with_status inc "escalated"). split; [assumption|].
      split; [|split].
      * repeat split.
      * intros _. discriminate.
      * intros Hcl. congruence.
    + exists inc. split; [|apply evolves_refl].
      apply Hkeep; [assumption|]. intros Hin.
      apply escalation_hits_In in Hin. destruct Hin as (_ & Ho & Hse).
      apply status_is_open_iff in Ho. rewrite Ho, Hse in Eb. discriminate.
  - simpl. unfold add_operator.
    destruct (negb _); exists inc; auto using evolves_refl.
Qed.

Lemma run_evolves (calls : list call) :
  forall self k inc,
    Inv self ->
    stored self k = Some inc ->
    exists inc', stored (snd (run self calls)) k = Some inc'
                 /\ evolves inc inc'.
Proof.
  induction calls as [|c rest IH]; intros self k inc HI Hs.
  - exists inc. auto using evolves_refl.
  - rewrite run_cons. cbn [snd].
    destruct (step_evolves self c k inc HI Hs) as (inc1 & Hs1 & He1).
    destruct (IH _ k inc1 (step_Inv self c HI) Hs1) as (inc2 & Hs2 & He2).
    exists inc2. split; [assumption | eapply evolves_trans; eauto].
Qed.

(** X7.  No call deletes an incident or rewrites what identifies it.  An
    incident stored under [k] is still stored under [k] after any calls,
    with the same id, type, priority, description and creation time; and
    if it had left [pending], it has not come back to it. *)
Theorem incidents_are_kept
    (self : IncidentDispatcher) (calls : list call) (k : Z) (inc : Incident) :
  Inv self ->
  stored self k = Some inc ->
  exists inc',
    stored (snd (run self calls)) k = Some inc'
    /\ same_identity inc inc'
    /\ (status inc <> "pending" -> status inc' <> "pending").
Proof.
  intros HI Hs.
  destruct (run_evolves calls self k inc HI Hs) as (inc' & Hs' & Hid & Hp & _).
  exists inc'. auto.
Qed.

Lemma incidents_are_kept_witness :
  exists inc',
    stored (snd (run breach_registered
                   [AutoEscalateIncidents (timedelta_minutes 16);
                    ResolveIncident (timedelta_minutes 17) 1])) 1
    = Some inc'
    /\ same_identity breach_incident inc'
    /\ (status breach_incident <> "pending" -> status inc' <> "pending").
Proof.
  assert (HI : Inv breach_registered)
    by apply register_incident_Inv, new_dispatcher_Inv.
  assert (Hs : stored breach_registered 1 = Some breach_incident)
    by (vm_compute; reflexivity).
  exact (incidents_are_kept breach_registered _ 1 breach_incident HI Hs).
Defined.

(** X8.  [resolved] and [escalated] are final: a stored incident that is neither
    pending nor in progress is stored unchanged after any calls. *)
Theorem closed_incidents_are_final
    (self : IncidentDispatcher) (calls : list call) (k : Z) (inc : Incident) :
  Inv self ->
  stored self k = Some inc ->
  status inc <> "pending" ->
  status inc <> "in_progress" ->
  stored (snd (run self calls)) k = Some inc.
Proof.
  intros HI Hs Hp Hq.
  destruct (run_evolves calls self k inc HI Hs) as (inc' & Hs' & _ & _ & Hc).
  rewrite Hs'. f_equal. apply Hc.
  destruct (status_is_open inc) eqn:E; [|reflexivity].
  apply status_is_open_iff in E. tauto.
Qed.

Lemma closed_incidents_are_final_witness :
  stored (snd (run (snd (auto_escalate_incidents breach_registered
                           (timedelta_minutes 16)))
                 [ResolveIncident (timedelta_minutes 17) 1;
                  AssignIncident (timedelta_minutes 18) 1 "ana";
                  AutoEscalateIncidents (timedelta_minutes 60)])) 1
  = Some (with_status breach_incident "escalated").
Proof.
  assert (HI : Inv (snd (auto_escalate_incidents breach_registered
                           (timedelta_minutes 16))))
    by apply auto_escalate_Inv, register_incident_Inv, new_dispatcher_Inv.
  assert (Hs : stored (snd (auto_escalate_incidents breach_registered
                              (timedelta_minutes 16))) 1
               = Some (with_status breach_incident "escalated"))
    by (vm_compute; reflexivity).
  assert (Hp : status (with_status breach_incident "escalated") <> "pending")
    by discriminate.
  assert (Hq : status (with_status breach_incident "escalated")
               <> "in_progress") by discriminate.
  exact (closed_incidents_are_final _ _ 1 _ HI Hs Hp Hq).
Defined.

(** ** The history *)

Lemma step_history (self : IncidentDispatcher) (c : call) :
  exists added,
    history (snd (step self c)) = history self ++ added
    /\ Forall (fun e => In (action e) history_actions) added.
Proof.
  destruct c as [now ty pr de|now i o|now i|now|n rs].
  - rewrite step_register. cbn [snd]. rewrite register_incident_eq.
    destruct (negb _); [exists []; rewrite app_nil_r; auto|].
    destruct (IncidentValidator.validate_all_incident_data ty pr de);
      [|exists []; rewrite app_nil_r; auto].
    cbn [snd].
    destruct (store_new_incident_fields self now ty pr de)
      as (_ & _ & _ & Hh & _).
    eexists. split; [exact Hh|]. repeat constructor.
  - simpl. unfold assign_incident.
    destruct (dict_get Z.eqb (incidents self) i) as [inc|];
      [|exists []; rewrite app_nil_r; auto].
    destruct (negb _); [exists []; rewrite app_nil_r; auto|].
    destruct (dict_get String.eqb (operators self) o) as [op|];
      [|exists []; rewrite app_nil_r; auto].
    destruct (negb (available op)); [exists []; rewrite app_nil_r; auto|].
    destruct (negb (can_handle op _)); [exists []; rewrite app_nil_r; auto|].
    eexists. split; [reflexivity|].
    constructor; [simpl; tauto | constructor].
  - simpl. unfold resolve_incident.
    destruct (dict_get Z.eqb (incidents self) i) as [inc|];
      [|exists []; rewrite app_nil_r; auto].
    destruct (negb _); [exists []; rewrite app_nil_r; auto|].
    eexists. split; [reflexivity|].
    constructor; [simpl; tauto | constructor].
  - simpl.
    pose proof (escalate_fold now (escalation_hits self now) 0 self) as H.
    cbv zeta in H. destruct H as (_ & Hh & _).
    fold (auto_escalate_incidents self now) in Hh.
    destruct (auto_escalate_incidents self now) as [cnt s1]. cbn [snd] in *.
    eexists. split; [exact Hh|].
    apply Forall_forall. intros e He. apply in_map_iff in He.
    destruct He as (h & <- & _). simpl. tauto.
  - simpl. unfold add_operator.
    destruct (negb _); exists []; rewrite app_nil_r; auto.
Qed.

(** X9.  The history is append-only: after any calls it is the history of before
    followed by the new entries, each of which records one of the four
    actions; no entry is changed or removed. *)
Theorem history_is_append_only
    (self : IncidentDispatcher) (calls : list call) :
  exists added,
    history (snd (run self calls)) = history self ++ added
    /\ Forall (fun e => In (action e) history_actions) added.
Proof.
  revert self. induction calls as [|c rest IH]; intros self.
  - exists []. rewrite app_nil_r. auto.
  - rewrite run_cons. cbn [snd].
    destruct (step_history self c) as (a1 & H1 & F1).
    destruct (IH (snd (step self c))) as (a2 & H2 & F2).
    exists (a1 ++ a2). rewrite H2, H1, app_assoc. split; [reflexivity|].
    apply Forall_app. auto.
Qed.

(** ** Properties of every stored incident *)

Section TableAll.
Variable P : Incident -> Prop.
Hypothesis P_assigned : forall inc o, P inc -> P (with_assignment inc o).
Hypothesis P_resolved : forall inc, P inc -> P (with_status inc "resolved").
Hypothesis P_escalated : forall inc, P inc -> P (with_status inc "escalated").
Hypothesis P_new :
  forall self now ty pr de,
    IncidentValidator.validate_all_incident_data ty pr de = [] ->
    P (new_incident self now ty pr de).

Lemma table_all_store (self self' : IncidentDispatcher) (k : Z)
    (inc : Incident) :
  table_all P self -> P inc ->
  incidents self' = dict_set Z.eqb (incidents self) k inc ->
  table_all P self'.
Proof.
  intros Hok Hinc Hi k' v Hin. rewrite Hi in Hin.
  apply (dict_set_In _ Z_eqb_spec) in Hin.
  destruct Hin as [[_ ->]|Hin]; [assumption | eauto].
Qed.

Lemma escalate_fold_table_all (now : Z) (hits : list Incident) :
  forall n self,
    table_all P self -> Forall P hits ->
    table_all P (snd (fold_left (escalate_step now) hits (n, self))).
Proof.
  induction hits as [|a rest IH]; intros n self Hok Hall; [exact Hok|].
  change (fold_left (escalate_step now) (a :: rest) (n, self))
    with (fold_left (escalate_step now) rest (escalate_step now (n, self) a)).
  destruct (escalate_step_fields now n self a) as (_ & H2 & _).
  cbv zeta in H2. inversion Hall as [|? ? Ha Hrest]; subst.
  destruct (escalate_step now (n, self) a) as [n1 s1].
  apply IH; [|assumption].
  eapply table_all_store; [exact Hok | apply P_escalated, Ha | exact H2].
Qed.

Lemma step_table_all (self : IncidentDispatcher) (c : call) :
  table_all P self -> table_all P (snd (step self c)).
Proof.
  intros Hok. destruct c as [now ty pr de|now i o|now i|now|n rs].
  - rewrite step_register. cbn [snd]. rewrite register_incident_eq.
    destruct (negb _); [exact Hok|].
    destruct (IncidentValidator.validate_all_incident_data ty pr de) eqn:Ev;
      [|exact Hok].
    cbn [snd].
    destruct (store_new_incident_fields self now ty pr de) as (Hi & _).
    eapply table_all_store with (inc := new_incident self now ty pr de);
      [exact Hok | apply P_new; exact Ev | exact Hi].
  - simpl. unfold assign_incident.
    destruct (dict_get Z.eqb (incidents self) i) as [inc|] eqn:G;
      [|exact Hok].
    destruct (negb _); [exact Hok|].
    destruct (dict_get String.eqb (operators self) o) as [op|]; [|exact Hok].
    destruct (negb (available op)); [exact Hok|].
    destruct (negb (can_handle op _)); [exact Hok|].
    eapply table_all_store; [exact Hok | | reflexivity].
    apply P_assigned. eapply Hok. apply (dict_get_In _ Z_eqb_spec). eauto.
  - simpl. unfold resolve_incident.
    destruct (dict_get Z.eqb (incidents self) i) as [inc|] eqn:G;
      [|exact Hok].
    destruct (negb _); [exact Hok|].
    eapply table_all_store; [exact Hok | | reflexivity].
    apply P_resolved. eapply Hok. apply (dict_get_In _ Z_eqb_spec). eauto.
  - simpl.
    assert (Hall : Forall P (escalation_hits self now)).
    { apply Forall_forall. intros h Hh. apply escalation_hits_In in Hh.
      destruct Hh as (Hv & _). unfold dict_values in Hv.
      apply in_map_iff in Hv. destruct Hv as ([k v] & <- & Hin). eauto. }
    pose proof (escalate_fold_table_all now _ 0 self Hok Hall) as H.
    fold (auto_escalate_incidents self now) in H.
    now destruct (auto_escalate_incidents self now).
  - simpl. unfold add_operator. destruct (negb _); exact Hok.
Qed.

Lemma run_table_all (calls : list call) :
  forall self, table_all P self -> table_all P (snd (run self calls)).
Proof.
  induction calls as [|c rest IH]; intros self Hok; [exact Hok|].
  rewrite run_cons. cbn [snd]. apply IH. now apply step_table_all.
Qed.

Lemma load_table_all (data : list IncidentData) :
  forall self,
    table_all P self -> Forall P (map from_dict data) ->
    table_all P (fold_left load_one data self).
Proof.
  induction data as [|x data IH]; intros self Hok Hall; [exact Hok|].
  simpl in *. inversion Hall as [|? ? Hx Hrest]; subst.
  apply IH; [|assumption].
  destruct (load_one_fields self x) as (Hi & _).
  eapply table_all_store; [exact Hok | exact Hx | exact Hi].
Qed.

Lemma new_dispatcher_table_all (st : StorageManager) :
  Forall P (map from_dict (Storage.load_incidents st)) ->
  table_all P (new_dispatcher st).
Proof.
  intros Hall. unfold new_dispatcher.
  set (s0 := {| storage := st; incidents := [] |}).
  destruct (initialize_fields s0) as (Hi & _).
  intros k inc Hin. rewrite Hi in Hin. revert k inc Hin.
  change (table_all P (_load_persisted_data s0)).
  apply load_table_all; [intros k inc [] | exact Hall].
Qed.
End TableAll.

(** ** Stripping *)

Lemma lstrip_head (s : string) :
  PyStr.lstrip s = EmptyString
  \/ exists c r, PyStr.lstrip s = String c r /\ PyStr.isspace c = false.
Proof.
  induction s as [|c r IH]; [now left|]. simpl.
  destruct (PyStr.isspace c) eqn:E; [exact IH|]. right. eauto.
Qed.

Lemma rstrip_head (c : ascii) (r : string) :
  PyStr.isspace c = false ->
  exists r', PyStr.rstrip (String c r) = String c r'.
Proof.
  intros E. simpl. destruct (PyStr.rstrip r); [rewrite E|]; eauto.
Qed.

Lemma rstrip_idem (s : string) :
  PyStr.rstrip (PyStr.rstrip s) = PyStr.rstrip s.
Proof.
  induction s as [|c r IH]; [reflexivity|]. simpl.
  destruct (PyStr.rstrip r) as [|c' r'] eqn:E.
  - destruct (PyStr.isspace c) eqn:Ec; [reflexivity|]. simpl.
    now rewrite Ec.
  - change (PyStr.rstrip (String c (String c' r')))
      with (match PyStr.rstrip (String c' r') with
            | EmptyString =>
                if PyStr.isspace c then EmptyString else String c EmptyString
            | x => String c x
            end).
    now rewrite IH.
Qed.

(** [strip] is idempotent: a stripped string has nothing left to strip. *)
Lemma strip_idem (s : string) :
  PyStr.strip (PyStr.strip s) = PyStr.strip s.
Proof.
  unfold PyStr.strip.
  destruct (lstrip_head s) as [->|(c & r & -> & Ec)]; [reflexivity|].
  destruct (rstrip_head c r Ec) as [r' Hr]. rewrite Hr.
  simpl PyStr.lstrip. rewrite Ec, <- Hr. apply rstrip_idem.
Qed.

Lemma well_formed_new (self : IncidentDispatcher) (now : Z)
    (ty pr de : string) :
  IncidentValidator.validate_all_incident_data ty pr de = [] ->
  well_formed (new_incident self now ty pr de).
Proof.
  intros H. apply no_violation_iff in H. destruct H as (Ht & Hp & Hd).
  repeat split; simpl; try assumption.
  unfold IncidentValidator.validate_description in *. now rewrite strip_idem.
Qed.

(** X10.  Every stored incident passes the validators.  On a dispatcher built on
    a storage whose records are well formed, and after any calls, each
    incident of the table has a valid type, a valid priority, a valid
    status, and a description of 5 to 500 characters once stripped; what
    [register_incident] stores is the stripped description, which is
    itself valid. *)
Theorem stored_incidents_are_well_formed
    (st : StorageManager) (calls : list call) (k : Z) (inc : Incident) :
  Forall well_formed (map from_dict (Storage.load_incidents st)) ->
  stored (snd (run (new_dispatcher st) calls)) k = Some inc ->
  well_formed inc.
Proof.
  intros Hall Hs.
  assert (Hn : table_all well_formed (new_dispatcher st))
    by now apply new_dispatcher_table_all.
  refine (run_table_all well_formed _ _ _ _ calls _ Hn k inc
            (stored_In _ _ _ Hs)).
  - intros i o (Ht & Hp & Hd & _). repeat split; assumption.
  - intros i (Ht & Hp & Hd & _). repeat split; assumption.
  - intros i (Ht & Hp & Hd & _). repeat split; assumption.
  - intros. now apply well_formed_new.
Qed.

Lemma stored_incidents_are_well_formed_witness :
  well_formed
    (mkIncident 1 "security" "high" "server breach" 0 (Some "eve")
       "resolved").
Proof.
  assert (Hs : stored (snd (run (new_dispatcher empty_storage)
                              assign_then_resolve)) 1
               = Some (mkIncident 1 "security" "high" "server breach" 0
                         (Some "eve") "resolved"))
    by (vm_compute; reflexivity).
  exact (stored_incidents_are_well_formed empty_storage assign_then_resolve
           1 _ (Forall_nil _) Hs).
Defined.

(** ** The default operators *)

Lemma default_operators_handle_no_type (o : Operator) (ty : string) :
  In o get_default_operators ->
  IncidentValidator.validate_type ty = true ->
  can_handle o ty = false.
Proof.
  intros Ho Ht. apply mem_In in Ht. simpl in Ho, Ht.
  destruct Ho as [<-|[<-|[<-|[<-|[<-|[]]]]]];
    destruct Ht as [<-|[<-|[<-|[]]]]; reflexivity.
Qed.

Lemma default_registry_In (n : string) (o : Operator) :
  dict_get String.eqb default_registry n = Some o ->
  In o get_default_operators.
Proof.
  intros H. apply (dict_get_In _ String.eqb_eq) in H.
  change default_registry
    with (map (fun o => (name o, o)) get_default_operators) in H.
  apply in_map_iff in H. destruct H as (o' & [= _ ->] & Hin). exact Hin.
Qed.

Lemma fold_operators_registry (ops : list Operator) :
  forall self,
    operators
      (fold_left
         (fun self operator =>
            set_operators self
              (dict_set String.eqb (operators self) (name operator) operator))
         ops self)
    = fold_left (fun m operator => dict_set String.eqb m (name operator) operator)
        ops (operators self).
Proof.
  induction ops as [|o ops IH]; intros self; [reflexivity|].
  simpl. now rewrite IH.
Qed.

Lemma load_operators (data : list IncidentData) :
  forall self, operators (fold_left load_one data self) = operators self.
Proof.
  induction data as [|x data IH]; intros self; [reflexivity|].
  simpl. rewrite IH. unfold load_one, _add_to_queue.
  destruct (status (from_dict x) =? "pending")%string;
    [destruct (priority (from_dict x) =? "high")%string|]; reflexivity.
Qed.

(** Operators are not persisted: whatever the storage holds, a new
    dispatcher starts with the five default operators. *)
Lemma new_dispatcher_operators (st : StorageManager) :
  operators (new_dispatcher st) = default_registry.
Proof.
  unfold new_dispatcher, _initialize_system. cbv zeta.
  set (s0 := {| storage := st; incidents := [] |}).
  assert (H0 : operators (_load_persisted_data s0) = [])
    by apply load_operators.
  set (s1 := _load_persisted_data s0) in *.
  set (s2 := mkDispatcher _ _ _ _ _ _ _ _).
  change (operators s2) with (operators s1). rewrite H0.
  rewrite fold_operators_registry.
  change (operators s2) with (operators s1). now rewrite H0.
Qed.

Lemma step_operators (self : IncidentDispatcher) (c : call) :
  is_add_operator c = false ->
  operators (snd (step self c)) = operators self.
Proof.
  intros Hc. destruct c as [now ty pr de|now i o|now i|now|n rs];
    [| | | |discriminate].
  - rewrite step_register. cbn [snd]. rewrite register_incident_eq.
    destruct (negb _); [reflexivity|].
    destruct (IncidentValidator.validate_all_incident_data ty pr de);
      [|reflexivity].
    cbn [snd].
    now destruct (store_new_incident_fields self now ty pr de)
      as (_ & _ & _ & _ & Ho & _).
  - simpl. unfold assign_incident.
    destruct (dict_get Z.eqb (incidents self) i) as [inc|]; [|reflexivity].
    destruct (negb _); [reflexivity|].
    destruct (dict_get String.eqb (operators self) o) as [op|];
      [|reflexivity].
    destruct (negb (available op)); [reflexivity|].
    destruct (negb (can_handle op _)); reflexivity.
  - simpl. unfold resolve_incident.
    destruct (dict_get Z.eqb (incidents self) i) as [inc|]; [|reflexivity].
    destruct (negb _); reflexivity.
  - simpl.
    pose proof (escalate_fold now (escalation_hits self now) 0 self) as H.
    cbv zeta in H. destruct H as (_ & _ & _ & _ & _ & _ & _ & Ho & _).
    fold (auto_escalate_incidents self now) in Ho.
    now destruct (auto_escalate_incidents self now).
Qed.

Lemma run_operators (calls : list call) :
  forall self,
    forallb (fun c => negb (is_add_operator c)) calls = true ->
    operators (snd (run self calls)) = operators self.
Proof.
  induction calls as [|c rest IH]; intros self Hall; [reflexivity|].
  simpl in Hall. apply andb_true_iff in Hall. destruct Hall as [Hc Hrest].
  rewrite run_cons. cbn [snd]. rewrite IH by assumption.
  apply step_operators. now apply negb_true_iff.
Qed.

(** X11.  With the default operators alone no assignment can succeed.  Their
    roles are role names, none of which is an incident type, and
    [can_handle] looks the incident type up among the roles.  So on a
    dispatcher built on a storage whose incidents have valid types, and as
    long as [add_operator] has not been called, [assign_incident] returns
    [False] for every incident and every operator name. *)
Theorem default_operators_are_never_assigned
    (st : StorageManager) (calls : list call) (now i : Z) (o : string) :
  Forall well_formed (map from_dict (Storage.load_incidents st)) ->
  forallb (fun c => negb (is_add_operator c)) calls = true ->
  assign_incident (snd (run (new_dispatcher st) calls)) now i o
  = (false, snd (run (new_dispatcher st) calls)).
Proof.
  intros Hall Hcalls.
  assert (Hwf : table_all well_formed (snd (run (new_dispatcher st) calls))).
  { apply run_table_all.
    - intros inc op (Ht & Hp & Hd & _). repeat split; assumption.
    - intros inc (Ht & Hp & Hd & _). repeat split; assumption.
    - intros inc (Ht & Hp & Hd & _). repeat split; assumption.
    - intros. now apply well_formed_new.
    - now apply new_dispatcher_table_all. }
  pose proof (run_operators calls (new_dispatcher st) Hcalls) as Hops.
  rewrite new_dispatcher_operators in Hops.
  set (self := snd (run (new_dispatcher st) calls)) in *.
  unfold assign_incident.
  destruct (dict_get Z.eqb (incidents self) i) as [inc|] eqn:G;
    [|reflexivity].
  destruct (negb _); [reflexivity|].
  rewrite Hops.
  destruct (dict_get String.eqb default_registry o) as [op|] eqn:Go;
    [|reflexivity].
  destruct (negb (available op)); [reflexivity|].
  rewrite (default_operators_handle_no_type op (type inc)); [reflexivity| |].
  - eapply default_registry_In; eauto.
  - apply (Hwf i inc). apply (dict_get_In _ Z_eqb_spec). exact G.
Qed.

Lemma default_operators_are_never_assigned_witness :
  assign_incident
    (snd (run (new_dispatcher empty_storage)
            [RegisterIncident 0 "security" "high" "server breach"]))
    1 1 "ana"
  = (false,
     snd (run (new_dispatcher empty_storage)
            [RegisterIncident 0 "security" "high" "server breach"])).
Proof.
  apply (default_operators_are_never_assigned empty_storage
           [RegisterIncident 0 "security" "high" "server breach"] 1 1 "ana").
  - simpl. constructor.
  - reflexivity.
Defined.

(** ** Saving and starting again *)

Lemma from_dict_to_dict (inc : Incident) : from_dict (to_dict inc) = inc.
Proof. now destruct inc. Qed.

Lemma load_fresh_table (data : list IncidentData) :
  forall self,
    NoDup (map data_id data) ->
    (forall x, In x data -> ~ In (data_id x) (dict_keys (incidents self))) ->
    incidents (fold_left load_one data self)
    = incidents self ++ map (fun x => (data_id x, from_dict x)) data.
Proof.
  induction data as [|x data IH]; intros self Hnd Hfresh.
  - simpl. now rewrite app_nil_r.
  - simpl. inversion Hnd as [|? ? Hx Hnd']; subst.
    destruct (load_one_fields self x) as (Hi & _).
    assert (Hi' : incidents (load_one self x)
                  = incidents self ++ [(data_id x, from_dict x)]).
    { rewrite Hi. apply (dict_set_absent _ Z_eqb_spec).
      apply (Hfresh x). now left. }
    rewrite IH; [rewrite Hi', <- app_assoc; reflexivity | assumption |].
    intros y Hy. rewrite Hi'. unfold dict_keys. rewrite map_app, in_app_iff.
    simpl. intros [Hin|[He|[]]].
    + apply (Hfresh y); [now right | assumption].
    + apply Hx. rewrite He. now apply in_map.
Qed.

Lemma load_history (data : list IncidentData) :
  forall self, history (fold_left load_one data self) = history self.
Proof.
  induction data as [|x data IH]; intros self; [reflexivity|].
  simpl. rewrite IH. now destruct (load_one_fields self x) as (_ & _ & _ & Hh).
Qed.

Lemma table_of_values (l : list (Z * Incident)) :
  (forall k v, In (k, v) l -> id v = k) ->
  map (fun i => (id i, i)) (dict_values l) = l.
Proof.
  intros Hk. unfold dict_values. rewrite map_map.
  rewrite <- (map_id l) at 2. apply map_ext_in.
  intros [k v] Hin. simpl. now rewrite (Hk k v Hin).
Qed.

(** X12.  Saving and starting again restores the table.  When the file can be
    written, a dispatcher built on the storage that [_save_data] leaves has
    the same incident table, in the same order; its queue holds the pending
    incidents of that table; its history is empty and its operators are the
    default ones, since neither is saved. *)
Theorem save_then_restart (self : IncidentDispatcher) :
  Inv self ->
  write_fault (storage self) = None ->
  let again := new_dispatcher (storage (snd (fst (_save_data self)))) in
  incidents again = incidents self
  /\ (forall q, In q (get_pending_incidents again) <->
                stored self (id q) = Some q /\ status q = "pending")
  /\ history again = []
  /\ operators again = default_registry.
Proof.
  intros HI Hw. cbv zeta.
  pose proof (save_data_cases self) as Hc. cbv zeta in Hc.
  rewrite Hw in Hc. rewrite Hc. cbn [fst snd]. clear Hc.
  set (data := map to_dict (dict_values (incidents self))).
  set (st := {| incidents_file := Some data; write_fault := None |}).
  change (storage (set_storage self st)) with st.
  assert (Hids : map data_id data = dict_keys (incidents self)).
  { unfold data. rewrite map_map. rewrite <- (values_ids _ HI).
    apply map_ext. intros i. reflexivity. }
  assert (Hnd : NoDup (map data_id (Storage.load_incidents st))).
  { change (Storage.load_incidents st) with data. rewrite Hids. apply HI. }
  assert (Hi : incidents (new_dispatcher st) = incidents self).
  { unfold new_dispatcher.
    set (s0 := {| storage := st; incidents := [] |}).
    destruct (initialize_fields s0) as (Hi & _). rewrite Hi.
    unfold _load_persisted_data.
    change (Storage.load_incidents (storage s0)) with data.
    rewrite load_fresh_table;
      [|change data with (Storage.load_incidents st); exact Hnd
       |intros x _ []].
    simpl. unfold data. rewrite map_map.
    rewrite <- (table_of_values (incidents self) (inv_key_id _ HI)) at 2.
    apply map_ext. intros i. simpl. now rewrite from_dict_to_dict. }
  split; [exact Hi|]. split; [|split].
  - intros q. destruct (new_dispatcher_queue_ok st Hnd) as [Hqc _].
    unfold get_pending_incidents. rewrite (Hqc q). unfold stored.
    now rewrite Hi.
  - unfold new_dispatcher.
    set (s0 := {| storage := st; incidents := [] |}).
    destruct (initialize_fields s0) as (_ & _ & _ & _ & Hh). rewrite Hh.
    apply load_history.
  - apply new_dispatcher_operators.
Qed.

Lemma save_then_restart_witness :
  let self := snd (run fresh_dispatcher assign_then_resolve) in
  let again := new_dispatcher (storage (snd (fst (_save_data self)))) in
  incidents again = incidents self
  /\ (forall q, In q (get_pending_incidents again) <->
                stored self (id q) = Some q /\ status q = "pending")
  /\ history again = []
  /\ operators again = default_registry.
Proof.
  apply (save_then_restart (snd (run fresh_dispatcher assign_then_resolve))).
  - apply reachable_Inv.
  - vm_compute. reflexivity.
Defined.

(** ** Search without the date filter *)

Lemma truthy_false (s : string) :
  PyStr.truthy s = false <-> s = EmptyString.
Proof.
  unfold PyStr.truthy. rewrite negb_false_iff. apply String.eqb_eq.
Qed.

(** X13.  With [days_back <= 0] the search returns, in table order, exactly the
    stored incidents that meet every criterion that is not the empty
    string: the text matches the description, the type, the assignee and
    the status are the ones asked for. *)
Theorem search_meets_every_criterion
    (re_search : string -> string -> bool)
    (self : IncidentDispatcher) (now : Z)
    (text ty op st : string) (days_back : Z) :
  days_back <= 0 ->
  exists found,
    search_incidents re_search self now text ty op st days_back
    = Returned found
    /\ found = filter (matches re_search text ty op st)
                 (dict_values (incidents self))
    /\ forall inc,
         In inc found <->
         In inc (dict_values (incidents self))
         /\ (text = EmptyString \/ re_search text (description inc) = true)
         /\ (ty = EmptyString \/ type inc = ty)
         /\ (op = EmptyString \/ assigned_to inc = Some op)
         /\ (st = EmptyString \/ status inc = st).
Proof.
  intros Hd. eexists. split; [now apply search_without_date_filter|].
  split; [reflexivity|]. intros inc. rewrite filter_In. unfold matches.
  rewrite !andb_true_iff.
  assert (Ha : forall (s : string) (b : bool),
             (if PyStr.truthy s then b else true) = true <->
             s = EmptyString \/ b = true).
  { intros s b. destruct (PyStr.truthy s) eqn:E.
    - split; [now right|]. intros [->|H]; [discriminate | assumption].
    - apply truthy_false in E. tauto. }
  rewrite !Ha, !String.eqb_eq.
  assert (Ho : match assigned_to inc with
               | Some o => (o =? op)%string
               | None => false
               end = true <-> assigned_to inc = Some op).
  { destruct (assigned_to inc) as [o|].
    - rewrite String.eqb_eq. split; congruence.
    - split; discriminate. }
  rewrite Ho. tauto.
Qed.

Lemma search_meets_every_criterion_witness :
  exists found,
    search_incidents (fun _ _ => true) breach_registered
      (timedelta_minutes 1) EmptyString "security" EmptyString "pending" 0
    = Returned found
    /\ found = filter (matches (fun _ _ => true) EmptyString "security"
                         EmptyString "pending")
                 (dict_values (incidents breach_registered))
    /\ forall inc,
         In inc found <->
         In inc (dict_values (incidents breach_registered))
         /\ (EmptyString = EmptyString \/ true = true)
         /\ ("security" = EmptyString \/ type inc = "security")
         /\ (EmptyString = EmptyString \/ assigned_to inc = Some EmptyString)
         /\ ("pending" = EmptyString \/ status inc = "pending").
Proof.
  apply (search_meets_every_criterion (fun _ _ => true) breach_registered
           (timedelta_minutes 1) EmptyString "security" EmptyString
           "pending" 0).
  lia.
Defined.

(** ** A negative limit *)

(** X14.  [get_history] with a negative limit does not return the last entries:
    [history[-limit:]] then starts at the index [-limit], so the call
    returns the history without its first [-limit] entries. *)
Theorem get_history_negative_limit (self : IncidentDispatcher) (limit : Z) :
  limit < 0 ->
  get_history self limit = skipn (Z.to_nat (- limit)) (history self).
Proof.
  intros Hn. unfold get_history, slice_from.
  destruct (- limit <? 0) eqn:E; [apply Z.ltb_lt in E; lia|].
  destruct (Z.le_gt_cases (- limit) (Z.of_nat (List.length (history self))))
    as [Hle|Hgt].
  - now rewrite Z.min_l.
  - rewrite Z.min_r by lia. rewrite Nat2Z.id.
    rewrite !skipn_all2; [reflexivity | lia | lia].
Qed.

Lemma get_history_negative_limit_witness :
  map incident_id
    (get_history (snd (run fresh_dispatcher assign_then_resolve)) (-1))
  = [1; 1].
Proof.
  rewrite (get_history_negative_limit
             (snd (run fresh_dispatcher assign_then_resolve)) (-1));
    [|lia].
  vm_compute. reflexivity.
Defined.

(** ** Composite filters *)

(** X15.  A composite of filters that each keep the incidents satisfying a
    predicate keeps exactly the incidents that satisfy all the predicates,
    in their original order: chaining is conjunction. *)
Theorem composite_filter_is_conjunction
    (ps : list (Incident -> bool)) (incs : list Incident) :
  IncidentFilter.create_composite_filter
    (map (fun p => filter p) ps) incs
  = filter (fun inc => forallb (fun p => p inc) ps) incs.
Proof.
  unfold IncidentFilter.create_composite_filter.
  revert incs. induction ps as [|p ps IH]; intros incs; simpl.
  - symmetry. apply List.filter_true.
  - rewrite IH. apply filter_filter.
Qed.

Example composite_filter_example :
  IncidentFilter.create_composite_filter
    [fun l => IncidentFilter.by_type l "security";
     fun l => IncidentFilter.by_status l "pending";
     fun l => IncidentFilter.by_priority l "low"]
    [breach_incident] = [].
Proof. reflexivity. Qed.

(** ** Statistics *)

Lemma incr_get (stats : list (string * Z)) (k k' : string) :
  dict_get String.eqb (incr stats k) k'
  = if (k =? k')%string
    then Some (match dict_get String.eqb stats k with
               | Some n => n
               | None => 0
               end + 1)
    else dict_get String.eqb stats k'.
Proof.
  unfold incr. destruct (k =? k')%string eqn:E.
  - apply String.eqb_eq in E. subst k'.
    rewrite (dict_get_set_same _ String.eqb_eq).
    now destruct (dict_get String.eqb stats k).
  - apply String.eqb_neq in E.
    now apply (dict_get_set_other _ String.eqb_eq).
Qed.

Lemma bump_bump (o : option Z) (a b : Z) :
  0 <= a -> 0 <= b -> bump (bump o a) b = bump o (a + b).
Proof.
  intros Ha Hb. unfold bump.
  destruct (a =? 0) eqn:Ea, (b =? 0) eqn:Eb, (a + b =? 0) eqn:Eab;
    rewrite ?Z.eqb_eq, ?Z.eqb_neq in *; try lia; try reflexivity;
    destruct o; f_equal; lia.
Qed.

(** A key that one turn of the loop increments exactly for the incidents
    satisfying [p] ends up counting them. *)
Lemma fold_count (k : string) (p : Incident -> bool) :
  (forall stats inc,
     dict_get String.eqb (count_incident stats inc) k
     = if p inc
       then Some (match dict_get String.eqb stats k with
                  | Some n => n
                  | None => 0
                  end + 1)
       else dict_get String.eqb stats k) ->
  forall incs stats,
    dict_get String.eqb (fold_left count_incident incs stats) k
    = bump (dict_get String.eqb stats k) (count_where p incs).
Proof.
  intros Hstep. induction incs as [|x incs IH]; intros stats.
  - reflexivity.
  - simpl fold_left. rewrite IH, Hstep. unfold count_where. simpl filter.
    destruct (p x).
    + change (Some (match dict_get String.eqb stats k with
                    | Some n => n
                    | None => 0
                    end + 1))
        with (bump (dict_get String.eqb stats k) 1).
      rewrite bump_bump by lia. f_equal. simpl List.length. lia.
    + reflexivity.
Qed.

Lemma count_incident_total (stats : list (string * Z)) (inc : Incident) :
  dict_get String.eqb (count_incident stats inc) "total"
  = Some (match dict_get String.eqb stats "total" with
          | Some n => n
          | None => 0
          end + 1).
Proof. unfold count_incident. rewrite !incr_get. reflexivity. Qed.

Lemma count_incident_status (s : string) (stats : list (string * Z))
    (inc : Incident) :
  dict_get String.eqb (count_incident stats inc) (String.append "status_" s)
  = if (status inc =? s)%string
    then Some (match dict_get String.eqb stats (String.append "status_" s) with
               | Some n => n
               | None => 0
               end + 1)
    else dict_get String.eqb stats (String.append "status_" s).
Proof.
  unfold count_incident. rewrite !incr_get. simpl.
  destruct (status inc =? s)%string eqn:E; [|reflexivity].
  apply String.eqb_eq in E. now subst s.
Qed.

Lemma count_incident_priority (s : string) (stats : list (string * Z))
    (inc : Incident) :
  dict_get String.eqb (count_incident stats inc)
    (String.append "priority_" s)
  = if (priority inc =? s)%string
    then Some (match dict_get String.eqb stats
                       (String.append "priority_" s) with
               | Some n => n
               | None => 0
               end + 1)
    else dict_get String.eqb stats (String.append "priority_" s).
Proof.
  unfold count_incident. rewrite !incr_get. simpl.
  destruct (priority inc =? s)%string eqn:E; [|reflexivity].
  apply String.eqb_eq in E. now subst s.
Qed.

Lemma count_incident_type (s : string) (stats : list (string * Z))
    (inc : Incident) :
  dict_get String.eqb (count_incident stats inc) (String.append "type_" s)
  = if (type inc =? s)%string
    then Some (match dict_get String.eqb stats (String.append "type_" s) with
               | Some n => n
               | None => 0
               end + 1)
    else dict_get String.eqb stats (String.append "type_" s).
Proof.
  unfold count_incident. rewrite !incr_get. simpl.
  destruct (type inc =? s)%string eqn:E; [|reflexivity].
  apply String.eqb_eq in E. now subst s.
Qed.

Lemma statistics_get_incident_key (self : IncidentDispatcher) (k : string) :
  k <> "operators_total" -> k <> "operators_available" ->
  dict_get String.eqb (get_statistics self) k
  = dict_get String.eqb
      (fold_left count_incident (dict_values (incidents self)) []) k.
Proof.
  intros H1 H2. unfold get_statistics. cbv zeta.
  rewrite !(dict_get_set_other _ String.eqb_eq) by congruence. reflexivity.
Qed.

(** X16.  [get_statistics] counts right.  ["total"] is the number of incidents
    and ["status_s"], ["priority_p"], ["type_t"] the numbers of incidents
    with that status, priority and type; a count of zero is not stored at
    all, so the key is then missing (with an empty table even ["total"]
    is).  The two operator counts are always present. *)
Theorem get_statistics_counts
    (self : IncidentDispatcher) (s p t : string) :
  let all := dict_values (incidents self) in
  let stats := get_statistics self in
  dict_get String.eqb stats "total"
  = positive_count (Z.of_nat (List.length all))
  /\ dict_get String.eqb stats (String.append "status_" s)
     = positive_count
         (count_where (fun i => (status i =? s)%string) all)
  /\ dict_get String.eqb stats (String.append "priority_" p)
     = positive_count
         (count_where (fun i => (priority i =? p)%string) all)
  /\ dict_get String.eqb stats (String.append "type_" t)
     = positive_count
         (count_where (fun i => (type i =? t)%string) all)
  /\ dict_get String.eqb stats "operators_total"
     = Some (Z.of_nat (List.length (operators self)))
  /\ dict_get String.eqb stats "operators_available"
     = Some (count_where (fun op => available op)
               (dict_values (operators self))).
Proof.
  cbv zeta.
  assert (Hb : forall n, bump None n = positive_count n).
  { intros n. unfold bump, positive_count. now destruct (n =? 0). }
  split; [|split; [|split; [|split; [|split]]]].
  - rewrite statistics_get_incident_key by discriminate.
    rewrite (fold_count "total" (fun _ => true) count_incident_total).
    simpl dict_get. rewrite Hb. unfold count_where.
    now rewrite List.filter_true.
  - rewrite statistics_get_incident_key by (simpl; discriminate).
    rewrite (fold_count _ _ (count_incident_status s)). apply Hb.
  - rewrite statistics_get_incident_key by (simpl; discriminate).
    rewrite (fold_count _ _ (count_incident_priority p)). apply Hb.
  - rewrite statistics_get_incident_key by (simpl; discriminate).
    rewrite (fold_count _ _ (count_incident_type t)). apply Hb.
  - unfold get_statistics. cbv zeta.
    rewrite (dict_get_set_other _ String.eqb_eq) by discriminate.
    apply (dict_get_set_same _ String.eqb_eq).
  - unfold get_statistics. cbv zeta.
    apply (dict_get_set_same _ String.eqb_eq).
Qed.

Example get_statistics_example :
  let stats :=
    get_statistics (snd (run fresh_dispatcher assign_then_resolve)) in
  dict_get String.eqb stats "total" = Some 1
  /\ dict_get String.eqb stats "status_resolved" = Some 1
  /\ dict_get String.eqb stats "status_pending" = None
  /\ dict_get String.eqb stats "operators_total" = Some 6
  /\ dict_get String.eqb (get_statistics fresh_dispatcher) "total" = None.
Proof. vm_compute. repeat split. Qed.

(** ** The operator registry *)

Lemma default_registry_ok :
  NoDup (dict_keys default_registry)
  /\ forall n o, In (n, o) default_registry -> operator_ok n o.
Proof.
  split.
  - change (dict_keys default_registry)
      with ["carlos"; "ana"; "miguel"; "sofia"; "admin"].
    repeat constructor; simpl; intuition discriminate.
  - intros n o Hin.
    change default_registry
      with (map (fun o => (name o, o)) get_default_operators) in Hin.
    apply in_map_iff in Hin. destruct Hin as (o' & [= <- <-] & Hin).
    simpl in Hin.
    destruct Hin as [<-|[<-|[<-|[<-|[<-|[]]]]]]; repeat split.
Qed.

Lemma validate_operator_name_strip (n : string) :
  IncidentValidator.validate_operator_name (PyStr.strip n)
  = IncidentValidator.validate_operator_name n.
Proof.
  unfold IncidentValidator.validate_operator_name. now rewrite strip_idem.
Qed.

Lemma step_registry_ok (self : IncidentDispatcher) (c : call) :
  registry_ok self -> registry_ok (snd (step self c)).
Proof.
  intros Hok. destruct (is_add_operator c) eqn:E.
  - destruct c as [| | | |n rs]; try discriminate. simpl.
    unfold add_operator.
    destruct (IncidentValidator.validate_operator_name n) eqn:Ev; simpl;
      [|exact Hok].
    destruct Hok as [Hnd Hall]. split.
    + now apply dict_set_keys_NoDup; [exact String.eqb_eq|].
    + intros n' o Hin. apply (dict_set_In _ String.eqb_eq) in Hin.
      destruct Hin as [[-> ->]|Hin]; [|now apply Hall].
      repeat split; simpl.
      * now rewrite validate_operator_name_strip.
      * apply strip_idem.
  - unfold registry_ok. now rewrite (step_operators self c E).
Qed.

(** X17.  The registry stays sound.  On a dispatcher built on any storage and
    after any calls, operator names are distinct, each operator is stored
    under its own name, that name is stripped and passes
    [validate_operator_name], and every operator is available: no
    operation ever marks an operator unavailable, so the availability test
    of [assign_incident] cannot fail for a registered operator. *)
Theorem operator_registry_is_sound
    (st : StorageManager) (calls : list call) :
  let self := snd (run (new_dispatcher st) calls) in
  NoDup (dict_keys (get_operators self))
  /\ forall n o,
       dict_get String.eqb (get_operators self) n = Some o ->
       name o = n
       /\ IncidentValidator.validate_operator_name n = true
       /\ PyStr.strip n = n
       /\ available o = true.
Proof.
  cbv zeta.
  assert (H : registry_ok (snd (run (new_dispatcher st) calls))).
  { assert (H0 : registry_ok (new_dispatcher st)).
    { unfold registry_ok. rewrite new_dispatcher_operators.
      exact default_registry_ok. }
    revert H0. generalize (new_dispatcher st).
    induction calls as [|c rest IH]; intros self H0; [exact H0|].
    rewrite run_cons. cbn [snd]. apply IH. now apply step_registry_ok. }
  destruct H as [Hnd Hall]. split; [exact Hnd|].
  intros n o Hg. apply (Hall n o).
  now apply (dict_get_In _ String.eqb_eq).
Qed.

Example add_operator_examples :
  let d := snd (add_operator fresh_dispatcher "  eve  " ["security"]) in
  dict_get String.eqb (get_operators d) "eve"
  = Some (mkOperator "eve" ["security"] true)
  /\ fst (add_operator fresh_dispatcher "e" ["security"]) = false
  /\ fst (add_operator fresh_dispatcher "eve!" ["security"]) = false
  /\ fst (add_operator fresh_dispatcher "eve" []) = true
  /\ List.length (get_operators (snd (add_operator d "eve" ["admin"])))
     = 6%nat.
Proof. vm_compute. repeat split. Qed.

(** ** History entries and the table *)

Lemma step_keys (self : IncidentDispatcher) (c : call) (k : Z) :
  Inv self ->
  In k (dict_keys (incidents self)) ->
  In k (dict_keys (incidents (snd (step self c)))).
Proof.
  intros HI Hin.
  destruct (stored self k) as [inc|] eqn:Hs.
  - destruct (step_evolves self c k inc HI Hs) as (inc' & Hs' & _).
    eapply stored_key; eauto.
  - apply (dict_get_None _ Z_eqb_spec) in Hs. contradiction.
Qed.

Lemma step_history_refers (self : IncidentDispatcher) (c : call) :
  Inv self ->
  history_refers_to_table self ->
  history_refers_to_table (snd (step self c)).
Proof.
  intros HI Hok.
  assert (Hnew : forall e,
             In e (history (snd (step self c))) ->
             In e (history self)
             \/ In (incident_id e)
                  (dict_keys (incidents (snd (step self c))))).
  { destruct c as [now ty pr de|now i o|now i|now|n rs].
    - rewrite step_register. cbn [snd]. rewrite register_incident_eq.
      destruct (negb _); [auto|].
      destruct (IncidentValidator.validate_all_incident_data ty pr de);
        [|auto].
      cbn [snd].
      destruct (store_new_incident_fields self now ty pr de)
        as (Hi & _ & _ & Hh & _).
      intros e He. rewrite Hh in He. apply in_app_iff in He.
      destruct He as [He|[<-|[]]]; [now left|]. right.
      rewrite Hi. apply (dict_set_keys_In _ Z_eqb_spec). now left.
    - simpl. unfold assign_incident.
      destruct (dict_get Z.eqb (incidents self) i) as [inc|]; [|auto].
      destruct (negb _); [auto|].
      destruct (dict_get String.eqb (operators self) o) as [op|]; [|auto].
      destruct (negb (available op)); [auto|].
      destruct (negb (can_handle op _)); [auto|].
      simpl. intros e He. apply in_app_iff in He.
      destruct He as [He|[<-|[]]]; [now left|]. right.
      apply (dict_set_keys_In _ Z_eqb_spec). now left.
    - simpl. unfold resolve_incident.
      destruct (dict_get Z.eqb (incidents self) i) as [inc|]; [|auto].
      destruct (negb _); [auto|].
      simpl. intros e He. apply in_app_iff in He.
      destruct He as [He|[<-|[]]]; [now left|]. right.
      apply (dict_set_keys_In _ Z_eqb_spec). now left.
    - simpl.
      pose proof (escalate_fold now (escalation_hits self now) 0 self) as H.
      cbv zeta in H.
      destruct H as (_ & Hh & _ & _ & _ & _ & _ & _ & Hk & _).
      fold (auto_escalate_incidents self now) in Hh, Hk.
      destruct (auto_escalate_incidents self now) as [cnt s1].
      cbn [snd] in *. intros e He. rewrite Hh in He.
      apply in_app_iff in He. destruct He as [He|He]; [now left|]. right.
      apply in_map_iff in He. destruct He as (h & <- & Hin).
      apply Hk. right. simpl. now apply in_map.
    - simpl. unfold add_operator. destruct (negb _); auto. }
  intros e He. destruct (Hnew e He) as [Hold|Hk]; [|exact Hk].
  apply step_keys; [assumption|]. now apply Hok.
Qed.

(** X18.  Every history entry is about a stored incident.  On a dispatcher built
    on any storage and after any calls, the [incident_id] of each entry of
    the history is the id of an incident of the table. *)
Theorem history_entries_name_stored_incidents
    (st : StorageManager) (calls : list call) (e : HistoryEntry) :
  In e (history (snd (run (new_dispatcher st) calls))) ->
  exists inc,
    stored (snd (run (new_dispatcher st) calls)) (incident_id e) = Some inc.
Proof.
  assert (H : forall self,
             Inv self -> history_refers_to_table self ->
             history_refers_to_table (snd (run self calls))).
  { induction calls as [|c rest IH]; intros self HI Hok; [exact Hok|].
    rewrite run_cons. cbn [snd].
    apply IH; [now apply step_Inv | now apply step_history_refers]. }
  assert (H0 : history_refers_to_table (new_dispatcher st)).
  { intros e' He'. exfalso. revert He'. unfold new_dispatcher.
    set (s0 := {| storage := st; incidents := [] |}).
    destruct (initialize_fields s0) as (_ & _ & _ & _ & Hh). rewrite Hh.
    unfold _load_persisted_data. rewrite load_history. simpl. tauto. }
  intros He. pose proof (H _ (new_dispatcher_Inv st) H0 e He) as Hk.
  destruct (stored (snd (run (new_dispatcher st) calls)) (incident_id e))
    as [inc|] eqn:Hs; [eauto|].
  apply (dict_get_None _ Z_eqb_spec) in Hs. contradiction.
Qed.

Lemma history_entries_name_stored_incidents_witness :
  exists inc,
    stored (snd (run (new_dispatcher empty_storage) assign_then_resolve))
      (incident_id (resolved_entry 2 1
                      (mkIncident 1 "security" "high" "server breach" 0
                         (Some "eve") "in_progress")))
    = Some inc.
Proof.
  apply (history_entries_name_stored_incidents empty_storage
           assign_then_resolve).
  vm_compute. right. right. left. reflexivity.
Defined.


(** ** Assignees are kept *)

Lemma step_keeps_assignee (self : IncidentDispatcher) (c : call) (k : Z)
    (inc : Incident) :
  Inv self -> table_ok self ->
  stored self k = Some inc ->
  exists inc',
    stored (snd (step self c)) k = Some inc'
    /\ forall o, assigned_to inc = Some o -> assigned_to inc' = Some o.
Proof.
  intros HI Hok Hs. destruct c as [now ty pr de|now i o|now i|now|n rs].
  - rewrite step_register. cbn [snd]. rewrite register_incident_eq.
    destruct (negb _); [exists inc; auto|].
    destruct (IncidentValidator.validate_all_incident_data ty pr de);
      [|exists inc; auto].
    cbn [snd]. exists inc. split; [|auto].
    destruct (store_new_incident_fields self now ty pr de) as (Hi & _).
    unfold stored. rewrite Hi, (dict_get_set_other _ Z_eqb_spec);
      [exact Hs|].
    pose proof (inv_fresh _ HI _ (stored_key _ _ _ Hs)). lia.
  - simpl. unfold assign_incident.
    destruct (dict_get Z.eqb (incidents self) i) as [inc0|] eqn:G;
      [|exists inc; auto].
    destruct (status inc0 =? "pending")%string eqn:Es; simpl;
      [|exists inc; auto].
    destruct (dict_get String.eqb (operators self) o) as [op|];
      [|exists inc; auto].
    destruct (negb (available op)); [exists inc; auto|].
    destruct (negb (can_handle op _)); [exists inc; auto|].
    unfold stored. simpl. destruct (Z.eq_dec i k) as [->|n].
    + unfold stored in Hs. rewrite Hs in G. injection G as <-.
      rewrite (dict_get_set_same _ Z_eqb_spec).
      exists (with_assignment inc o). split; [reflexivity|].
      intros o' Ho'. exfalso. apply String.eqb_eq in Es.
      assert (Hne : assigned_to inc <> None) by congruence.
      pose proof (Hok k inc (dict_get_In _ Z_eqb_spec _ _ _ Hs) Hne) as Ht.
      rewrite Es in Ht. destruct Ht as [Ht|[Ht|Ht]]; discriminate.
    + rewrite (dict_get_set_other _ Z_eqb_spec) by assumption.
      exists inc. auto.
  - simpl. unfold resolve_incident.
    destruct (dict_get Z.eqb (incidents self) i) as [inc0|] eqn:G;
      [|exists inc; auto].
    destruct (status_is_open inc0) eqn:Eo; simpl; [|exists inc; auto].
    unfold stored. simpl. destruct (Z.eq_dec i k) as [->|n].
    + unfold stored in Hs. rewrite Hs in G. injection G as <-.
      rewrite (dict_get_set_same _ Z_eqb_spec).
      exists (with_status inc "resolved"). split; [reflexivity|].
      intros o' Ho'. exact Ho'.
    + rewrite (dict_get_set_other _ Z_eqb_spec) by assumption.
      exists inc. auto.
  - simpl.
    destruct (sweep_effect self now HI) as (Hhit & Hkeep & _). cbv zeta in *.
    destruct (auto_escalate_incidents self now) as [cnt s1] eqn:E.
    cbn [snd] in *.
    destruct (status_is_open inc
              && should_escalate (escalator self) now inc) eqn:Eb.
    + apply andb_true_iff in Eb. destruct Eb as [Eo Ese].
      assert (Hin : In inc (escalation_hits self now)).
      { apply escalation_hits_In. split; [eapply stored_value; eauto|].
        split; [now apply status_is_open_iff | assumption]. }
      pose proof (Hhit inc Hin) as Hs'.
      rewrite (stored_id _ _ _ HI Hs) in Hs'.
      exists (with_status inc "escalated"). split; [assumption|].
      intros o' Ho'. exact Ho'.
    + exists inc. split; [|auto].
      apply Hkeep; [assumption|]. intros Hin.
      apply escalation_hits_In in Hin. destruct Hin as (_ & Ho & Hse).
      apply status_is_open_iff in Ho. rewrite Ho, Hse in Eb. discriminate.
  - simpl. unfold add_operator. destruct (negb _); exists inc; auto.
Qed.

Lemma run_keeps_assignee (calls : list call) :
  forall self k inc,
    Inv self -> table_ok self ->
    stored self k = Some inc ->
    exists inc',
      stored (snd (run self calls)) k = Some inc'
      /\ forall o, assigned_to inc = Some o -> assigned_to inc' = Some o.
Proof.
  induction calls as [|c rest IH]; intros self k inc HI Hok Hs.
  - exists inc. auto.
  - rewrite run_cons. cbn [snd].
    destruct (step_keeps_assignee self c k inc HI Hok Hs)
      as (inc1 & Hs1 & H1).
    destruct (IH _ k inc1 (step_Inv self c HI) (step_table_ok self c Hok) Hs1)
      as (inc2 & Hs2 & H2).
    exists inc2. split; [assumption | auto].
Qed.

(** C6, as the code has it.  Take a dispatcher built on a storage whose
    incidents satisfy it, any calls, and an incident stored afterwards.  If
    it has an assignee it is in progress, resolved or escalated, and if it
    is pending it has none.  The assignee it has is the one it keeps: after
    any further calls the incident is stored with the same assignee.  In
    particular [resolve_incident] stores it as resolved, and a sweep that
    hits it stores it as escalated, with [assigned_to] as it was, because
    [with_status] copies the field. *)
Theorem assignee_implies_taken_always
    (st : StorageManager) (calls more : list call) (k : Z) (inc : Incident) :
  Forall assignee_implies_taken (map from_dict (Storage.load_incidents st)) ->
  let mid := snd (run (new_dispatcher st) calls) in
  stored mid k = Some inc ->
  (assigned_to inc <> None ->
   status inc = "in_progress" \/ status inc = "resolved"
   \/ status inc = "escalated")
  /\ (status inc = "pending" -> assigned_to inc = None)
  /\ (forall o,
        assigned_to inc = Some o ->
        exists inc',
          stored (snd (run mid more)) k = Some inc'
          /\ assigned_to inc' = Some o)
  /\ (forall now,
        status inc = "pending" \/ status inc = "in_progress" ->
        stored (snd (resolve_incident mid now k)) k
        = Some (with_status inc "resolved")
        /\ status (with_status inc "resolved") = "resolved"
        /\ assigned_to (with_status inc "resolved") = assigned_to inc)
  /\ (forall now,
        In inc (escalation_hits mid now) ->
        stored (snd (auto_escalate_incidents mid now)) k
        = Some (with_status inc "escalated")
        /\ status (with_status inc "escalated") = "escalated"
        /\ assigned_to (with_status inc "escalated") = assigned_to inc).
Proof.
  intros Hall mid Hs.
  assert (HI : Inv mid) by apply reachable_Inv.
  assert (Hok : table_ok mid)
    by (apply run_table_ok; now apply new_dispatcher_table_ok).
  assert (Htaken : assignee_implies_taken inc)
    by (apply (Hok k inc); now apply stored_In).
  split; [exact Htaken|]. split; [|split; [|split]].
  - intros Hp. destruct (assigned_to inc) as [o|] eqn:Ea; [|reflexivity].
    exfalso. unfold assignee_implies_taken in Htaken. rewrite Ea, Hp in Htaken.
    destruct Htaken as [H|[H|H]]; discriminate.
  - intros o Ho.
    destruct (run_keeps_assignee more mid k inc HI Hok Hs) as (inc' & Hs' & Hk).
    exists inc'. auto.
  - intros now Hopen. apply status_is_open_iff in Hopen.
    unfold resolve_incident. unfold stored in Hs. rewrite Hs, Hopen. simpl.
    split; [|split; reflexivity].
    unfold stored. simpl. apply dict_get_set_same. exact Z_eqb_spec.
  - intros now Hin.
    destruct (sweep_effect mid now HI) as (Hhit & _). cbv zeta in Hhit.
    pose proof (Hhit inc Hin) as Hs'. rewrite (stored_id _ _ _ HI Hs) in Hs'.
    split; [exact Hs' | split; reflexivity].
Qed.

(** C6 on a run: the incident assigned to "eve" keeps her as assignee when
    it is resolved and when a sweep escalates it. *)
Lemma assignee_implies_taken_always_witness :
  let mid := snd (run (new_dispatcher empty_storage) register_then_assign) in
  let inc :=
    mkIncident 1 "security" "high" "server breach" 0 (Some "eve")
      "in_progress" in
  stored (snd (resolve_incident mid 2 1)) 1
  = Some (mkIncident 1 "security" "high" "server breach" 0 (Some "eve")
            "resolved")
  /\ stored (snd (auto_escalate_incidents mid (timedelta_minutes 16))) 1
     = Some (mkIncident 1 "security" "high" "server breach" 0 (Some "eve")
               "escalated")
  /\ exists inc',
       stored (snd (run mid [ResolveIncident 2 1])) 1 = Some inc'
       /\ assigned_to inc' = Some "eve".
Proof.
  intros mid inc.
  assert (Hs : stored mid 1 = Some inc) by (vm_compute; reflexivity).
  assert (Hopen : status inc = "pending" \/ status inc = "in_progress")
    by (right; reflexivity).
  assert (Hin : In inc (escalation_hits mid (timedelta_minutes 16)))
    by (vm_compute; left; reflexivity).
  pose proof (assignee_implies_taken_always empty_storage
                register_then_assign [ResolveIncident 2 1] 1 inc
                (Forall_nil _) Hs) as (_ & _ & Hkeep & Hres & Hesc).
  split; [exact (proj1 (Hres 2 Hopen))|].
  split; [exact (proj1 (Hesc (timedelta_minutes 16) Hin))|].
  exact (Hkeep "eve" eq_refl).
Defined.
